(** * Flashcards: the Modified-Leitner scheduling core (src/algorithm.ts)

    A shallow embedding of [toBucketSets], [getBucketRange], [practice],
    [update], [getHint] and [computeProgress], and the properties of them
    that the specification states.

    JavaScript [Set] objects are mutable and shared by reference: the
    [Map] that [update] returns is a shallow copy of its argument, so both
    maps hold the same [Set] objects.  The embedding therefore keeps every
    [Set] object in a store indexed by references, and the functions of
    algorithm.ts run in a state monad over that store.

    JavaScript numbers are doubles.  Day and bucket numbers are modelled by
    the integers they stand for, and the sums, the difference and the
    quotient that the code computes are rounded as doubles round them. *)

From Stdlib Require Import ZArith QArith.QArith_base QArith.Qround QArith.Qabs.
From Stdlib Require Import String Ascii.
From Stdlib Require Floats.SpecFloat.
From stdpp Require Import gmap strings list sorting.

Close Scope Q_scope.
Open Scope nat_scope.

Set Warnings "-clear-no-such-hyp".

(** * Data model *)

(** Modelled from the spec: the [Flashcard] class of flashcards.ts, which is
    not among the sources.  The tests build a card as
    [new Flashcard(front, back, hint, tags)], and the specification gives
    cards identity-based equality: [ident] stands for the identity of the
    object, so two cards built from the same texts differ. *)
Record Flashcard : Type := mkFlashcard {
  ident : nat;
  front : string;
  back : string;
  hint : string;
  tags : list string
}.

#[global] Instance Flashcard_eq_dec : EqDecision Flashcard.
Proof. solve_decision. Defined.

(** Modelled from the spec: the [AnswerDifficulty] enumeration of
    flashcards.ts, "one of three values - Wrong, Hard, Easy". *)
Inductive AnswerDifficulty : Type := Wrong | Hard | Easy.

#[global] Instance AnswerDifficulty_eq_dec : EqDecision AnswerDifficulty.
Proof. solve_decision. Defined.

(** ** The contents of a [Set<Flashcard>]

    A JavaScript [Set] keeps its members in insertion order and holds no
    member twice. *)
Module SetValue.

Definition has (s : list Flashcard) (c : Flashcard) : bool :=
  bool_decide (c ∈ s).

Definition add (s : list Flashcard) (c : Flashcard) : list Flashcard :=
  if has s c then s else s ++ [c].

Definition delete (s : list Flashcard) (c : Flashcard) : list Flashcard :=
  filter (λ x, x ≠ c) s.

End SetValue.

(** ** [Map<K, V>]

    A JavaScript [Map] iterates in insertion order, [set] on a key that is
    present keeps the key's position, and [delete] removes the entry. *)
Section JsMap.
Context {K V : Type} `{EqDecision K}.

Fixpoint Map_get (m : list (K * V)) (k : K) : option V :=
  match m with
  | [] => None
  | (k', v) :: m' => if decide (k = k') then Some v else Map_get m' k
  end.

Fixpoint Map_set (m : list (K * V)) (k : K) (v : V) : list (K * V) :=
  match m with
  | [] => [(k, v)]
  | (k', v') :: m' =>
      if decide (k = k') then (k, v) :: m' else (k', v') :: Map_set m' k v
  end.

Definition Map_delete (m : list (K * V)) (k : K) : list (K * V) :=
  filter (λ e, e.1 ≠ k) m.

Definition Map_keys (m : list (K * V)) : list K := m.*1.

End JsMap.

(** ** Arrays

    [None] is a hole (reading it gives [undefined]).  Writing at an index
    past the end extends the array, leaving holes in between. *)
Section JsArray.
Context {A : Type}.

Definition Array_get (a : list (option A)) (i : nat) : option A :=
  mjoin (a !! i).

Definition Array_set (a : list (option A)) (i : nat) (x : A)
  : list (option A) :=
  if decide (i < length a) then <[i := Some x]> a
  else a ++ replicate (i - length a) None ++ [Some x].

End JsArray.

(** ** Numbers

    A JavaScript number is a double: it holds every integer up to 2^53 in
    magnitude, and an arithmetic operation returns the double nearest to
    the exact result, the one with the even significand when two are
    equally near.  A number with an integer value is modelled by that
    integer, the quotient of two numbers by a rational.

    Numbers that count the elements of an [Array], a [Map] or a [Set], or
    the characters of a string, are far below 2^53, and the operations on
    them are exact; they are natural numbers here. *)

(** The integer nearest to [n / d], the even one of two equally near. *)
Definition round_half_even (n d : Z) : Z :=
  let q := (n / d)%Z in
  let r := (n mod d)%Z in
  if decide (2 * r < d)%Z then q
  else if decide (d < 2 * r)%Z then (q + 1)%Z
  else if Z.even q then q else (q + 1)%Z.

(** The double nearest to an integer.  From 2^53 on a double has 53
    significant bits: it is a multiple of [2^(e - 52)], where [2^e] is the
    greatest power of two up to it.  (Doubles end below 2^1024; no number
    of the code comes near.) *)
Definition Number_of_Z (z : Z) : Z :=
  let a := Z.abs z in
  if decide (a < 2 ^ 53)%Z then z
  else
    let ulp := (2 ^ (Z.log2 a - 52))%Z in
    (Z.sgn z * (round_half_even a ulp * ulp))%Z.

(** [x + y] and [x - y] on numbers with integer values. *)
Definition Number_add (x y : Z) : Z := Number_of_Z (x + y).

Definition Number_sub (x y : Z) : Z := Number_of_Z (x - y).

(** The exponent [e] with [2^e <= x / y < 2^(e + 1)], for [x, y > 0]. *)
Definition binade (x y : Z) : Z :=
  let e0 := (Z.log2 x - Z.log2 y)%Z in
  if decide (x * 2 ^ Z.max 0 (- e0) < y * 2 ^ Z.max 0 e0)%Z
  then (e0 - 1)%Z else e0.

(** [x / y] for [x >= 0] and [y > 0], the operands of the one division of
    the code: the double nearest to the quotient, which is [m * 2^(e - 52)]
    for the integer [m] nearest to the quotient scaled by [2^(52 - e)]. *)
Definition Number_div (x y : Z) : Q :=
  if decide (0 < x ∧ 0 < y)%Z then
    let k := (52 - binade x y)%Z in
    let m := round_half_even (x * 2 ^ Z.max 0 k) (y * 2 ^ Z.max 0 (- k)) in
    Qmake (m * 2 ^ Z.max 0 (- k)) (Z.to_pos (2 ^ Z.max 0 k))
  else 0%Q.

(** [r] is a double: [m * 2^(a - b)] with a significand [m] below 2^53
    (the exponent is left without bounds; the doubles from 2^-1022 to
    2^1024 are of this form). *)
Definition is_double (r : Q) : Prop :=
  ∃ m a b : Z,
    (Z.abs m < 2 ^ 53)%Z ∧ (0 ≤ a)%Z ∧ (0 ≤ b)%Z
    ∧ Qeq r (Qmake (m * 2 ^ a) (Z.to_pos (2 ^ b))).

(** [r] is a double nearest to [q]: no double is nearer. *)
Definition nearest_double (q r : Q) : Prop :=
  is_double r
  ∧ ∀ r', is_double r' → Qle (Qabs (Qminus r q)) (Qabs (Qminus r' q)).

(** The doubles of the Standard Library's specification of IEEE 754
    arithmetic, against which the operations above are checked below. *)
Definition SF_of_Z (z : Z) : SpecFloat.spec_float :=
  SpecFloat.binary_normalize 53 1024 z 0 false.

Definition Q_of_SF (x : SpecFloat.spec_float) : Q :=
  match x with
  | SpecFloat.S754_finite s m e =>
      let v := Qmake (Z.pos m * 2 ^ Z.max 0 e) (Z.to_pos (2 ^ Z.max 0 (- e))) in
      if s then Qopp v else v
  | _ => 0%Q
  end.

(** ** The store of [Set] objects and the monad of the code *)

Definition loc : Type := nat.

(** Modelled from the spec: the [BucketMap] type of flashcards.ts, a mapping
    from bucket number to a set of flashcards, which the tests build as a
    [Map<number, Set<Flashcard>>].  Bucket numbers are numbers whose value
    is a non-negative integer; the value under a key is a reference to a
    [Set] object. *)
Abbreviation BucketMap := (list (nat * loc)).

Abbreviation BucketArray := (list (option loc)).

(** The store: the members of every [Set] object, in insertion order. *)
Abbreviation store := (gmap loc (list Flashcard)).

Definition M (A : Type) : Type := store → A * store.

#[global] Instance M_ret : MRet M := λ A a h, (a, h).
#[global] Instance M_bind : MBind M :=
  λ A B k c h, let '(a, h') := c h in k a h'.

(** The members of the object at [s]. *)
Definition members (h : store) (s : loc) : list Flashcard :=
  default [] (h !! s).

(** [new Set<Flashcard>()] *)
Definition new_Set : M loc :=
  λ h, let s := fresh (dom h) in (s, <[s := []]> h).

(** [s.has(c)] *)
Definition Set_has (s : loc) (c : Flashcard) : M bool :=
  λ h, (SetValue.has (members h s) c, h).

(** [s.add(c)] *)
Definition Set_add (s : loc) (c : Flashcard) : M unit :=
  λ h, (tt, <[s := SetValue.add (members h s) c]> h).

(** [s.delete(c)] *)
Definition Set_delete (s : loc) (c : Flashcard) : M unit :=
  λ h, (tt, <[s := SetValue.delete (members h s) c]> h).

(** [s.size] *)
Definition Set_size (s : loc) : M nat :=
  λ h, (length (members h s), h).

(** The members of [s] in iteration order. *)
Definition Set_values (s : loc) : M (list Flashcard) :=
  λ h, (members h s, h).

(** A [for] loop over [l] that threads the loop's variables [s]. *)
Fixpoint for_of {A S : Type} (l : list A) (s : S) (body : S → A → M S) : M S :=
  match l with
  | [] => mret s
  | x :: l' => s' ← body s x; for_of l' s' body
  end.

(** * The functions of algorithm.ts *)

(** ** [toBucketSets] *)
Definition toBucketSets (buckets : BucketMap) : M BucketArray :=
  let array : BucketArray := [] in
  let lastbucket :=
    foldl (λ lastbucket number,
             if decide (lastbucket ≤ number) then number else lastbucket)
          0 (Map_keys buckets) in
  array ← for_of (seq 0 (S lastbucket)) array
            (λ array i, s ← new_Set; mret (Array_set array i s));
  let array :=
    foldl (λ array bucket, Array_set array bucket.1 bucket.2) array buckets in
  mret array.

(** ** [getBucketRange]

    [minBucket] and [maxBucket] are [undefined] ([None]) until a bucket with
    a card is met.  For a hole of the array, [??] gives a new, empty set. *)
Record BucketRange : Type := mkRange {
  minBucket : nat;
  maxBucket : nat
}.

Definition getBucketRange (buckets : BucketArray) : M (option BucketRange) :=
  '(minBucket, maxBucket) ←
    for_of (seq 0 (length buckets)) (None, None)
      (λ '(minBucket, maxBucket) i,
         bucket ← match Array_get buckets i with
                  | Some bucket => mret bucket
                  | None => new_Set
                  end;
         size ← Set_size bucket;
         if decide (0 < size) then
           let minBucket :=
             match minBucket with
             | None => Some i
             | Some m => if decide (i < m) then Some i else Some m
             end in
           let maxBucket :=
             match maxBucket with
             | None => Some i
             | Some m => if decide (m < i) then Some i else Some m
             end in
           mret (minBucket, maxBucket)
         else mret (minBucket, maxBucket));
  match minBucket, maxBucket with
  | Some minBucket, Some maxBucket => mret (Some (mkRange minBucket maxBucket))
  | _, _ => mret None
  end.

(** ** [practice]

    [day] is a number with an integer value, and [day + 1] is rounded as a
    double.  [%] is the remainder that takes the sign of the dividend
    ([Z.rem]) and is exact on doubles, as [Math.pow(2, i)] is; once [2^i]
    exceeds [dayNumber] the remainder is [dayNumber] itself, as it is with
    the [Infinity] that [Math.pow] gives from [i = 1024] on. *)
Definition practice (buckets : BucketArray) (day : Z) : M loc :=
  practiceCards ← new_Set;
  let dayNumber := Number_add day 1 in
  for_of (seq 0 (length buckets)) tt
    (λ _ bucketIndex,
       match Array_get buckets bucketIndex with
       | Some bucket =>
           if decide (Z.rem dayNumber (2 ^ Z.of_nat bucketIndex) = 0%Z) then
             cards ← Set_values bucket;
             for_of cards tt (λ _ card, Set_add practiceCards card)
           else mret tt
       | None => mret tt
       end);;
  mret practiceCards.

(** ** [update] *)

(** The scan for the bucket that holds [card]; it stops at the first one. *)
Fixpoint find_bucket (entries : list (nat * loc)) (card : Flashcard)
  : M (option nat) :=
  match entries with
  | [] => mret None
  | (bucketNum, cards) :: rest =>
      found ← Set_has cards card;
      if found : bool then mret (Some bucketNum) else find_bucket rest card
  end.

(** The bucket a card moves to.  [currentBucket + 1] and
    [currentBucket - 1] are rounded as doubles.  The [default] branch of the
    [switch] is not reachable, the enumeration being closed. *)
Definition new_bucket (difficulty : AnswerDifficulty) (currentBucket : nat) : nat :=
  match difficulty with
  | Easy => Z.to_nat (Number_add (Z.of_nat currentBucket) 1)
  | Hard => Z.to_nat (Z.max 0 (Number_sub (Z.of_nat currentBucket) 1))
  | Wrong => 0
  end.

(** [newBuckets] is a [Map] object of its own, created by [new Map(buckets)]
    and changed by [delete] and [set]; the caller's [Map] object is only
    read.  The [Set] objects are those of the caller's map. *)
Definition update (buckets : BucketMap) (card : Flashcard)
    (difficulty : AnswerDifficulty) : M BucketMap :=
  let newBuckets : BucketMap := buckets in
  currentBucket ← find_bucket newBuckets card;
  match currentBucket with
  | None => mret newBuckets
  | Some currentBucket =>
      match Map_get newBuckets currentBucket with
      | None => mret newBuckets
      | Some currentCards =>
          Set_delete currentCards card;;
          size ← Set_size currentCards;
          let newBuckets :=
            if decide (size = 0) then Map_delete newBuckets currentBucket
            else newBuckets in
          let newBucket := new_bucket difficulty currentBucket in
          newCards ← match Map_get newBuckets newBucket with
                     | Some cards => mret cards
                     | None => new_Set
                     end;
          Set_add newCards card;;
          mret (Map_set newBuckets newBucket newCards)
      end
  end.

(** ** [getHint]

    A character of a string stands for one code unit of the JavaScript
    string.  [Math.ceil(n / 2)] is the ceiling of the quotient. *)
Fixpoint repeat_string (s : string) (n : nat) : string :=
  match n with
  | 0 => ""
  | S n' => s ++ repeat_string s n'
  end.

Definition getHint (card : Flashcard) : string :=
  if decide (String.length (front card) = 0) then ""%string
  else
    let hintLength :=
      Z.to_nat (Qceiling (Z.of_nat (String.length (front card)) # 2)) in
    let shown := substring 0 hintLength (front card) in
    let hidden :=
      repeat_string "_" (String.length (front card) - hintLength) in
    (shown ++ hidden)%string.

(** ** [computeProgress] *)

Record HistoryEntry : Type := mkEntry {
  card : Flashcard;
  difficulty : AnswerDifficulty
}.

Record Progress : Type := mkProgress {
  totalCards : nat;
  cardsByBucket : list (nat * nat);
  successRate : Q;
  hardestCards : list Flashcard
}.

(** [Array.prototype.sort] with a comparison function.  The language
    standard requires the sort to be stable; with a consistent comparison
    every stable sort returns the same array, here by insertion.  An element
    stays behind those the comparison puts first ([cmp x y > 0]). *)
Section JsSort.
Context {A : Type} (cmp : A → A → Z).

Fixpoint sort_insert (x : A) (l : list A) : list A :=
  match l with
  | [] => [x]
  | y :: l' =>
      if decide (0 < cmp x y)%Z then y :: sort_insert x l' else x :: l
  end.

Definition Array_sort (l : list A) : list A := foldr sort_insert [] l.

End JsSort.

(** The first loop: the number of cards and the size of each bucket. *)
Definition count_cards (buckets : BucketMap) : M (nat * list (nat * nat)) :=
  for_of buckets (0, [])
    (λ '(totalCards, cardsByBucket) '(bucket, cards),
       count ← Set_size cards;
       mret (totalCards + count, Map_set cardsByBucket bucket count)).

(** The second loop: the entries judged [Easy] or [Hard]. *)
Definition count_successes (history : list HistoryEntry) : nat :=
  foldl (λ successCount entry,
           if decide (difficulty entry = Easy ∨ difficulty entry = Hard)
           then S successCount else successCount)
        0 history.

(** The third loop: how often each card was judged [Wrong]. *)
Definition count_wrong (history : list HistoryEntry) : list (Flashcard * nat) :=
  foldl (λ wrongCounts entry,
           if decide (difficulty entry = Wrong) then
             let count := default 0 (Map_get wrongCounts (card entry)) in
             Map_set wrongCounts (card entry) (count + 1)
           else wrongCounts)
        [] history.

(** [successRate] is the double that [successCount / history.length]
    gives, held as the rational number it is. *)
Definition computeProgress (buckets : BucketMap) (history : list HistoryEntry)
  : M Progress :=
  '(totalCards, cardsByBucket) ← count_cards buckets;
  let successCount := count_successes history in
  let successRate :=
    if decide (0 < length history)
    then Number_div (Z.of_nat successCount) (Z.of_nat (length history))
    else 0%Q in
  let wrongCounts := count_wrong history in
  let hardestCards :=
    (take 3 (Array_sort (λ a b, Z.of_nat b.2 - Z.of_nat a.2)%Z wrongCounts)).*1 in
  mret (mkProgress totalCards cardsByBucket successRate hardestCards).

(** * The vocabulary of the properties *)

(** The set stored under bucket number [k], read through the store. *)
Definition bucket (h : store) (m : BucketMap) (k : nat)
  : option (list Flashcard) :=
  members h <$> Map_get m k.

(** Card [c] is in bucket [k]. *)
Definition in_bucket (h : store) (m : BucketMap)
    (k : nat) (c : Flashcard) : Prop :=
  ∃ s, Map_get m k = Some s ∧ c ∈ members h s.

(** Bucket [b] is the one that [update] takes the card from: the first
    entry of the map, in the order of the map, whose set has the card. *)
Definition source_bucket (h : store) (m : BucketMap)
    (c : Flashcard) (b : nat) : Prop :=
  ∃ before s after,
    m = before ++ (b, s) :: after
    ∧ c ∈ members h s
    ∧ ∀ e, e ∈ before → c ∉ members h e.2.

(** What a [Map] of [Set] objects is in the store: a key occurs once (a
    [Map] holds one entry per key), every value is a [Set] object of the
    store, and every key holds a [Set] object of its own. *)
Record store_ok (h : store) (m : BucketMap) : Prop := {
  keys_once : NoDup (Map_keys m);
  sets_allocated : ∀ k s, Map_get m k = Some s → s ∈ dom h;
  sets_distinct :
    ∀ k1 k2 s, Map_get m k1 = Some s → Map_get m k2 = Some s → k1 = k2
}.

(** The two invariants of the sparse bucket map. *)
Definition no_empty_buckets (h : store) (m : BucketMap)
  : Prop :=
  ∀ k s, Map_get m k = Some s → members h s ≠ [].

Definition one_bucket_per_card (h : store) (m : BucketMap)
  : Prop :=
  ∀ c k1 k2, in_bucket h m k1 c → in_bucket h m k2 c → k1 = k2.

(** A well-formed sparse bucket map: a [Map] of [Set] objects of the store
    that meets both invariants. *)
Record well_formed (h : store) (m : BucketMap) : Prop := {
  wf_keys_once : NoDup (Map_keys m);
  wf_allocated : ∀ k s, Map_get m k = Some s → s ∈ dom h;
  wf_no_empty : no_empty_buckets h m;
  wf_one_bucket : one_bucket_per_card h m
}.

(** Every slot of a dense array that holds a reference holds one of the
    store. *)
Definition array_ok (h : store) (a : BucketArray) : Prop :=
  ∀ i s, a !! i = Some (Some s) → s ∈ dom h.

(** The number of cards in slot [i] of a dense array; a hole and an index
    past the end have none. *)
Definition slot_size (h : store) (a : BucketArray) (i : nat) : nat :=
  match Array_get a i with
  | Some s => length (members h s)
  | None => 0
  end.

(** Slot [i] of a dense array holds a set with at least one card. *)
Definition occupied (h : store) (a : BucketArray) (i : nat) : Prop :=
  0 < slot_size h a i.

(** [st] holds the least and the greatest of the slots below [n] that have a
    card, and nothing when there is none. *)
Definition bounds_of (h : store) (a : BucketArray) (n : nat)
    (st : option nat * option nat) : Prop :=
  (∀ x, st.1 = Some x →
     x < n ∧ occupied h a x ∧ ∀ i, i < n → occupied h a i → x ≤ i)
  ∧ (∀ y, st.2 = Some y →
       y < n ∧ occupied h a y ∧ ∀ i, i < n → occupied h a i → i ≤ y)
  ∧ (st.1 = None → ∀ i, i < n → ¬ occupied h a i)
  ∧ (st.1 = None ↔ st.2 = None).

(** Card [c] is in the set of slot [i] of a dense array. *)
Definition in_slot (h : store) (a : BucketArray) (i : nat) (c : Flashcard)
  : Prop :=
  ∃ s, a !! i = Some (Some s) ∧ c ∈ members h s.

(** Every set of the map is a [Set]: it holds no card twice. *)
Definition sets_no_dup (h : store) (m : BucketMap) : Prop :=
  ∀ k s, Map_get m k = Some s → NoDup (members h s).


(** The card with the front text replaced. *)
Definition with_front (card : Flashcard) (text : string) : Flashcard :=
  mkFlashcard (ident card) text (back card) (hint card) (tags card).

(** The number of cards of a map: the sum of the sizes of its sets. *)
Definition card_count (h : store) (m : BucketMap) : nat :=
  sum_list_with (λ e, length (members h e.2)) m.

(** The index of the first element of [l] that satisfies [P], and the length
    of [l] when there is none. *)
Fixpoint first_index {A : Type} (P : A → Prop) `{∀ x, Decision (P x)}
    (l : list A) : nat :=
  match l with
  | [] => 0
  | x :: l' => if decide (P x) then 0 else S (first_index P l')
  end.

Definition judged_wrong (c : Flashcard) (e : HistoryEntry) : Prop :=
  card e = c ∧ difficulty e = Wrong.

#[global] Instance judged_wrong_dec c e : Decision (judged_wrong c e).
Proof. unfold judged_wrong. apply _. Defined.

(** How often [c] was judged [Wrong], and where it was first. *)
Definition wrong_count (history : list HistoryEntry) (c : Flashcard) : nat :=
  length (filter (judged_wrong c) history).

Definition first_wrong (history : list HistoryEntry) (c : Flashcard) : nat :=
  first_index (judged_wrong c) history.

(** Where [c] first occurs in the history, under any judgment. *)
Definition first_occurrence (history : list HistoryEntry) (c : Flashcard) : nat :=
  first_index (λ e, card e = c) history.

(** [a] is listed before [b]: judged [Wrong] more often, or as often and
    first judged [Wrong] earlier. *)
Definition harder (history : list HistoryEntry) (a b : Flashcard) : Prop :=
  wrong_count history b < wrong_count history a
  ∨ (wrong_count history a = wrong_count history b
     ∧ first_wrong history a < first_wrong history b).

(** ** Cards and stores of the examples *)

Definition cardA : Flashcard := mkFlashcard 1 "QA" "A" "" [].
Definition cardB : Flashcard := mkFlashcard 2 "QB" "B" "" [].
Definition cardX : Flashcard := mkFlashcard 3 "X" "X" "" [].

(** The store of the map [{0: {A, X}, 2: {B}}]. *)
Definition example_store : store :=
  {[0 := [cardA; cardX]; 1 := [cardB]]}.

Definition example_map : BucketMap := [(0, 0); (2, 1)].

(** The store of the map [{3: {X}}]. *)
Definition single_store : store := {[0 := [cardX]]}.

Definition single_map : BucketMap := [(3, 0)].

(** The bucket number 2^53, the first number [b] with [b + 1 === b]. *)
Definition bucket_2_53 : nat := Z.to_nat (2 ^ 53).

(** * Properties *)

(** ** Numbers *)

Lemma round_half_even_near n d :
  (0 < d)%Z → (- d ≤ 2 * (round_half_even n d * d - n) ≤ d)%Z.
Proof.
  intros Hd. unfold round_half_even.
  pose proof (Z.div_mod n d ltac:(lia)) as Hn.
  pose proof (Z.mod_pos_bound n d Hd) as Hr.
  repeat case_decide; try destruct (Z.even (n / d)); nia.
Qed.

Lemma round_half_even_le n d c :
  (0 < d)%Z → (n ≤ c * d)%Z → (round_half_even n d ≤ c)%Z.
Proof.
  intros Hd Hn. pose proof (round_half_even_near n d Hd). nia.
Qed.

Lemma round_half_even_ge n d c :
  (0 < d)%Z → (c * d ≤ n)%Z → (c ≤ round_half_even n d)%Z.
Proof.
  intros Hd Hn. pose proof (round_half_even_near n d Hd). nia.
Qed.

(** Up to 2^53 every integer is a double. *)
Lemma Number_of_Z_exact z : (Z.abs z ≤ 2 ^ 53)%Z → Number_of_Z z = z.
Proof.
  intros Hz. unfold Number_of_Z. case_decide as Hlt; [done|].
  assert (z = 2 ^ 53 ∨ z = - 2 ^ 53)%Z as [->| ->] by lia; by vm_compute.
Qed.

Lemma Number_add_exact x y :
  (Z.abs (x + y) ≤ 2 ^ 53)%Z → Number_add x y = (x + y)%Z.
Proof. apply Number_of_Z_exact. Qed.

Lemma Number_sub_exact x y :
  (Z.abs (x - y) ≤ 2 ^ 53)%Z → Number_sub x y = (x - y)%Z.
Proof. apply Number_of_Z_exact. Qed.

(** The first sums and differences that are rounded. *)
Example Number_add_rounds :
  Number_add (2 ^ 53 - 1) 1 = (2 ^ 53)%Z
  ∧ Number_add (2 ^ 53) 1 = (2 ^ 53)%Z
  ∧ Number_add (2 ^ 53 + 2) 1 = (2 ^ 53 + 4)%Z
  ∧ Number_sub (2 ^ 53) 1 = (2 ^ 53 - 1)%Z
  ∧ Number_sub (2 ^ 53 + 2) 1 = (2 ^ 53)%Z.
Proof. by vm_compute. Qed.

Lemma pow2_pos (a : Z) : (0 ≤ a)%Z → (0 < 2 ^ a)%Z.
Proof. intros. apply Z.pow_pos_nonneg; lia. Qed.

(** Scaled by [2^(52 - e)], where [e] is its binade, a quotient is between
    2^52 and 2^53. *)
Lemma binade_spec x y :
  (0 < x)%Z → (0 < y)%Z →
  let k := (52 - binade x y)%Z in
  (2 ^ 52 * (y * 2 ^ Z.max 0 (- k)) ≤ x * 2 ^ Z.max 0 k
   ∧ x * 2 ^ Z.max 0 k < 2 ^ 53 * (y * 2 ^ Z.max 0 (- k)))%Z.
Proof.
  intros Hx Hy k.
  destruct (Z.log2_spec x Hx) as [Hx1 Hx2].
  destruct (Z.log2_spec y Hy) as [Hy1 Hy2].
  pose proof (Z.log2_nonneg x) as Hlx. pose proof (Z.log2_nonneg y) as Hly.
  rewrite Z.pow_succ_r in Hx2, Hy2 by done.
  set (lx := Z.log2 x) in *. set (ly := Z.log2 y) in *.
  set (e0 := (lx - ly)%Z).
  set (P := (x * 2 ^ Z.max 0 (- e0))%Z). set (D0 := (y * 2 ^ Z.max 0 e0)%Z).
  assert (0 < D0 ∧ D0 < 2 * P ∧ P < 2 * D0)%Z as (HD0 & HPD1 & HPD2).
  { unfold P, D0. destruct (decide (0 ≤ e0)%Z).
    - rewrite (Z.max_l 0 (- e0)), (Z.max_r 0 e0) by lia.
      assert (2 ^ lx = 2 ^ ly * 2 ^ e0)%Z as E
        by (rewrite <- Z.pow_add_r by lia; f_equal; lia).
      pose proof (pow2_pos e0 ltac:(lia)). nia.
    - rewrite (Z.max_r 0 (- e0)), (Z.max_l 0 e0) by lia.
      assert (2 ^ ly = 2 ^ lx * 2 ^ (- e0))%Z as E
        by (rewrite <- Z.pow_add_r by lia; f_equal; lia).
      pose proof (pow2_pos (- e0) ltac:(lia)). nia. }
  assert (∀ c, (0 ≤ c)%Z → (k + e0 = c)%Z →
            ((x * 2 ^ Z.max 0 k) * D0
             = P * (y * 2 ^ Z.max 0 (- k)) * 2 ^ c)%Z) as Hscale.
  { intros c Hc Hk. unfold P, D0.
    assert (2 ^ Z.max 0 k * 2 ^ Z.max 0 e0
            = 2 ^ Z.max 0 (- e0) * 2 ^ Z.max 0 (- k) * 2 ^ c)%Z as E.
    { rewrite <- !Z.pow_add_r by lia. f_equal. lia. }
    nia. }
  assert (0 < y * 2 ^ Z.max 0 (- k))%Z as HD.
  { pose proof (pow2_pos (Z.max 0 (- k)) ltac:(lia)). nia. }
  unfold k, binade. fold lx ly e0 P D0.
  case_decide as Hlt.
  - pose proof (Hscale 53%Z ltac:(lia)) as E.
    unfold k, binade in E. fold lx ly e0 P D0 in E.
    rewrite decide_True in E by done. specialize (E ltac:(lia)).
    set (N := (x * 2 ^ Z.max 0 (52 - (e0 - 1)))%Z) in *.
    set (D := (y * 2 ^ Z.max 0 (- (52 - (e0 - 1))))%Z) in *.
    unfold k, binade in HD. fold lx ly e0 P D0 in HD.
    rewrite decide_True in HD by done. fold D in HD.
    change (2 ^ 53)%Z with (2 * 2 ^ 52)%Z in *.
    split; nia.
  - pose proof (Hscale 52%Z ltac:(lia)) as E.
    unfold k, binade in E. fold lx ly e0 P D0 in E.
    rewrite decide_False in E by done. specialize (E ltac:(lia)).
    set (N := (x * 2 ^ Z.max 0 (52 - e0))%Z) in *.
    set (D := (y * 2 ^ Z.max 0 (- (52 - e0)))%Z) in *.
    unfold k, binade in HD. fold lx ly e0 P D0 in HD.
    rewrite decide_False in HD by done. fold D in HD.
    change (2 ^ 53)%Z with (2 * 2 ^ 52)%Z in *.
    split; nia.
Qed.

(** No integer is nearer to [n / d] than the one it is rounded to. *)
Lemma round_half_even_nearest n d j :
  (0 < d)%Z →
  (Z.abs (round_half_even n d * d - n) ≤ Z.abs (j * d - n))%Z.
Proof.
  intros Hd. pose proof (round_half_even_near n d Hd) as Hm.
  set (m := round_half_even n d) in *.
  destruct (Z.lt_trichotomy j m) as [Hj|[->|Hj]]; [|done|]; nia.
Qed.

(** The quotient is [m * 2^a / 2^b] with a significand [m] of 53 bits, the
    integer nearest to the exact quotient scaled by [2^b / 2^a]. *)
Lemma Number_div_spec x y :
  (0 < x)%Z → (0 < y)%Z →
  ∃ m a b,
    (0 ≤ a)%Z ∧ (0 ≤ b)%Z
    ∧ Number_div x y = Qmake (m * 2 ^ a) (Z.to_pos (2 ^ b))
    ∧ (2 ^ 52 ≤ m ≤ 2 ^ 53)%Z
    ∧ (2 ^ 52 * (y * 2 ^ a) ≤ x * 2 ^ b)%Z
    ∧ m = round_half_even (x * 2 ^ b) (y * 2 ^ a)
    ∧ (x ≤ y → a = 0 ∧ 52 ≤ b)%Z.
Proof.
  intros Hx Hy. unfold Number_div. rewrite decide_True by done.
  pose proof (binade_spec x y Hx Hy) as [Hlo Hhi]. cbv zeta in Hlo, Hhi.
  set (k := (52 - binade x y)%Z) in *.
  set (a := Z.max 0 (- k)) in *. set (b := Z.max 0 k) in *.
  pose proof (pow2_pos a ltac:(lia)) as HA. pose proof (pow2_pos b ltac:(lia)) as HB.
  assert (0 < y * 2 ^ a)%Z as HD by nia.
  exists (round_half_even (x * 2 ^ b) (y * 2 ^ a)), a, b.
  split; [lia|]. split; [lia|]. split; [done|]. split; [|split; [done|split; [done|]]].
  - pose proof (round_half_even_near (x * 2 ^ b) (y * 2 ^ a) HD). nia.
  - intros Hxy. assert (0 ≤ k)%Z as Hk.
    { unfold k, binade. pose proof (Z.log2_le_mono x y Hxy). case_decide; lia. }
    assert (a = 0%Z) as Ha by lia. split; [done|].
    destruct (decide (52 ≤ b)%Z) as [|Hb52]; [done|]. exfalso.
    rewrite Ha in Hlo. change (2 ^ 0)%Z with 1%Z in Hlo.
    assert (2 ^ b < 2 ^ 52)%Z by (apply Z.pow_lt_mono_r; lia). nia.
Qed.

Lemma Number_div_0 y : Number_div 0 y = 0%Q.
Proof. unfold Number_div. by rewrite decide_False by lia. Qed.

(** No double [m' * 2^a / 2^b] is nearer to the quotient [N / D], scaled
    by [2^b0 / 2^a0] to lie from 2^52 on, than the nearest integer [m]: a
    double with a greater unit is an integer in that scale, and one with a
    smaller unit is below 2^52. *)
Lemma no_double_nearer (m N D m' a b a0 b0 : Z) :
  (0 < D)%Z → (0 ≤ a)%Z → (0 ≤ b)%Z → (0 ≤ a0)%Z → (0 ≤ b0)%Z →
  (2 ^ 52 * D ≤ N)%Z →
  (∀ j, Z.abs (m * D - N) ≤ Z.abs (j * D - N))%Z →
  (Z.abs m' < 2 ^ 53)%Z →
  (Z.abs (m * D - N) * (2 ^ b * 2 ^ a0)
   ≤ Z.abs (m' * (2 ^ a * 2 ^ b0) * D - N * (2 ^ b * 2 ^ a0)))%Z.
Proof.
  intros HD Ha Hb Ha0 Hb0 Hlo Hnear Hm'.
  pose proof (pow2_pos a Ha). pose proof (pow2_pos b Hb).
  pose proof (pow2_pos a0 Ha0). pose proof (pow2_pos b0 Hb0).
  destruct (decide (b + a0 ≤ a + b0)%Z) as [Hc|Hc].
  - set (c := (a + b0 - (b + a0))%Z).
    assert (2 ^ a * 2 ^ b0 = 2 ^ c * (2 ^ b * 2 ^ a0))%Z as E.
    { rewrite <- !Z.pow_add_r by lia. f_equal. lia. }
    rewrite E. pose proof (Hnear (m' * 2 ^ c)%Z) as Hj.
    set (G := (2 ^ b * 2 ^ a0)%Z) in *. assert (0 < G)%Z by nia.
    replace (m' * (2 ^ c * G) * D - N * G)%Z with ((m' * 2 ^ c * D - N) * G)%Z by ring.
    rewrite Z.abs_mul, (Z.abs_eq G) by lia. nia.
  - set (c := (b + a0 - (a + b0))%Z).
    assert (2 ^ b * 2 ^ a0 = 2 ^ c * (2 ^ a * 2 ^ b0))%Z as E.
    { rewrite <- !Z.pow_add_r by lia. f_equal. lia. }
    rewrite E. pose proof (Hnear (2 ^ 52)%Z) as Hj.
    assert (2 ≤ 2 ^ c)%Z as Hc2.
    { change 2%Z with (2 ^ 1)%Z at 1. apply Z.pow_le_mono_r; lia. }
    set (G := (2 ^ a * 2 ^ b0)%Z) in *. assert (0 < G)%Z by nia.
    set (F := (2 ^ c)%Z) in *.
    replace (m' * G * D - N * (F * G))%Z with ((m' * D - N * F) * G)%Z by ring.
    rewrite Z.abs_mul, (Z.abs_eq G) by lia.
    replace (Z.abs (m * D - N) * (F * G))%Z with (Z.abs (m * D - N) * F * G)%Z by ring.
    apply Z.mul_le_mono_nonneg_r; [lia|].
    change (2 ^ 53)%Z with (2 * 2 ^ 52)%Z in Hm'.
    assert (m' * D < 2 * 2 ^ 52 * D)%Z by nia.
    assert (2 * 2 ^ 52 * D ≤ N * F)%Z by nia.
    rewrite (Z.abs_neq (m' * D - N * F)) by lia.
    rewrite (Z.abs_neq (2 ^ 52 * D - N)) in Hj by lia.
    assert (Z.abs (m * D - N) * F ≤ - (2 ^ 52 * D - N) * F)%Z
      by (apply Z.mul_le_mono_nonneg_r; lia).
    nia.
Qed.

Lemma Number_div_nearest_pos x y :
  (0 < x)%Z → (0 < y)%Z →
  nearest_double (Qmake x (Z.to_pos y)) (Number_div x y).
Proof.
  intros Hx Hy.
  destruct (Number_div_spec x y Hx Hy)
    as (m & a0 & b0 & Ha0 & Hb0 & -> & Hm & Hlo & Hround & _).
  pose proof (pow2_pos a0 Ha0) as HA0. pose proof (pow2_pos b0 Hb0) as HB0.
  assert (0 < y * 2 ^ a0)%Z as HD by nia.
  split.
  - destruct (decide (m = 2 ^ 53)%Z) as [->|Hne].
    + exists (2 ^ 52)%Z, (a0 + 1)%Z, b0. split; [done|]. split; [lia|]. split; [done|].
      rewrite Z.pow_add_r by lia. unfold Qeq. cbn [Qnum Qden].
      change (2 ^ 53)%Z with (2 ^ 52 * 2 ^ 1)%Z. f_equal. ring.
    + exists m, a0, b0. split; [lia|]. done.
  - intros r' (m' & a & b & Hm' & Ha & Hb & ->).
    pose proof (pow2_pos a Ha) as HA. pose proof (pow2_pos b Hb) as HB.
    assert (∀ j, Z.abs (m * (y * 2 ^ a0) - x * 2 ^ b0)
                 ≤ Z.abs (j * (y * 2 ^ a0) - x * 2 ^ b0))%Z as Hnear.
    { intros j. rewrite Hround. by apply round_half_even_nearest. }
    pose proof (no_double_nearer m (x * 2 ^ b0) (y * 2 ^ a0) m' a b a0 b0
                  HD Ha Hb Ha0 Hb0 Hlo Hnear Hm') as Hcore.
    clear Hnear Hround.
    unfold Qle, Qabs, Qminus, Qplus, Qopp. cbn [Qnum Qden].
    rewrite !Pos2Z.inj_mul, !Z2Pos.id by lia.
    set (A0 := (2 ^ a0)%Z) in *. set (B0 := (2 ^ b0)%Z) in *.
    set (A := (2 ^ a)%Z) in *. set (B := (2 ^ b)%Z) in *.
    replace (m * A0 * y + - x * B0)%Z with (m * (y * A0) - x * B0)%Z by ring.
    replace (m' * (A * B0) * (y * A0) - x * B0 * (B * A0))%Z
      with ((m' * A * y + - x * B) * (B0 * A0))%Z in Hcore by ring.
    rewrite Z.abs_mul, (Z.abs_eq (B0 * A0)) in Hcore by nia.
    set (L := Z.abs (m * (y * A0) - x * B0)) in *.
    set (R := Z.abs (m' * A * y + - x * B)) in *.
    assert (0 ≤ L)%Z by apply Z.abs_nonneg. assert (0 ≤ R)%Z by apply Z.abs_nonneg.
    assert (L * B ≤ R * B0)%Z by nia. nia.
Qed.

(** The quotient is a double nearest to the exact quotient. *)
Lemma Number_div_nearest x y :
  (0 ≤ x)%Z → (0 < y)%Z →
  nearest_double (Qdiv (inject_Z x) (inject_Z y)) (Number_div x y).
Proof.
  intros Hx Hy.
  assert (Qeq (Qdiv (inject_Z x) (inject_Z y)) (Qmake x (Z.to_pos y))) as Hq.
  { rewrite (Qmake_Qdiv x (Z.to_pos y)). by rewrite Z2Pos.id. }
  destruct (decide (x = 0%Z)) as [->|Hx0].
  - rewrite Number_div_0. split.
    + exists 0%Z, 0%Z, 0%Z. by vm_compute.
    + intros r' _. rewrite Hq. apply Qle_trans with 0%Q; [|apply Qabs_nonneg].
      unfold Qle, Qabs, Qminus, Qplus, Qopp. cbn [Qnum Qden]. lia.
  - destruct (Number_div_nearest_pos x y ltac:(lia) Hy) as [Hd Hnear].
    split; [done|]. intros r' Hr'. rewrite Hq. by apply Hnear.
Qed.

(** A number divided by one that is not less is between 0 and 1. *)
Lemma Number_div_bounds x y :
  (0 ≤ x ≤ y)%Z → (0 < y)%Z →
  Qle 0 (Number_div x y) ∧ Qle (Number_div x y) 1.
Proof.
  intros Hx Hy. destruct (decide (x = 0%Z)) as [->|Hx0].
  { rewrite Number_div_0. by vm_compute. }
  destruct (Number_div_spec x y ltac:(lia) Hy)
    as (m & a & b & Ha & Hb & -> & Hm & Hlo & Hround & Hab).
  destruct (Hab ltac:(lia)) as [-> Hb52].
  pose proof (pow2_pos b Hb) as HB. change (2 ^ 0)%Z with 1%Z in *.
  assert (m ≤ 2 ^ b)%Z as Hle.
  { rewrite Hround. apply round_half_even_le; nia. }
  unfold Qle. cbn [Qnum Qden]. rewrite !Z2Pos.id by lia. split; nia.
Qed.

(** The operations against the Standard Library's specification of IEEE
    754 doubles (53 bits of precision, exponents below 1024): the same
    sums and differences around 2^53 and 2^54, and the same quotients. *)
Example Number_add_is_SFadd :
  Forall (λ x, SpecFloat.SFadd 53 1024 (SF_of_Z x) (SF_of_Z 1)
               = SF_of_Z (Number_add x 1))
    [0; 1; 3; 2 ^ 53 - 1; 2 ^ 53; 2 ^ 53 + 2; 2 ^ 53 + 4; 2 ^ 54; 2 ^ 54 + 4;
     2 ^ 60]%Z.
Proof. repeat (apply Forall_cons; split; [by vm_compute|]). apply Forall_nil_2. Qed.

Example Number_sub_is_SFsub :
  Forall (λ x, SpecFloat.SFsub 53 1024 (SF_of_Z x) (SF_of_Z 1)
               = SF_of_Z (Number_sub x 1))
    [0; 1; 3; 2 ^ 53; 2 ^ 53 + 2; 2 ^ 53 + 4; 2 ^ 54; 2 ^ 54 + 4; 2 ^ 60]%Z.
Proof. repeat (apply Forall_cons; split; [by vm_compute|]). apply Forall_nil_2. Qed.

Example Number_div_is_SFdiv :
  Forall (λ '(x, y),
            Qeq (Q_of_SF (SpecFloat.SFdiv 53 1024 (SF_of_Z x) (SF_of_Z y)))
                (Number_div x y))
    [(0, 4); (1, 3); (2, 3); (2, 4); (1, 10); (5, 5); (7, 3); (99, 100);
     (1, 2 ^ 53 - 1); (2 ^ 53 - 1, 3)]%Z.
Proof. repeat (apply Forall_cons; split; [by vm_compute|]). apply Forall_nil_2. Qed.

(** One success in three entries: 0.3333333333333333. *)
Example Number_div_1_3 :
  Number_div 1 3 = Qmake 6004799503160661 (Z.to_pos (2 ^ 54)).
Proof. by vm_compute. Qed.

(** ** The store *)

Lemma members_insert h s x s' :
  members (<[s := x]> h) s' = if decide (s = s') then x else members h s'.
Proof.
  unfold members. rewrite lookup_insert. by repeat case_decide.
Qed.

Lemma members_insert_eq h s x : members (<[s := x]> h) s = x.
Proof. by rewrite members_insert, decide_True. Qed.

Lemma members_insert_ne h s x s' : s ≠ s' → members (<[s := x]> h) s' = members h s'.
Proof. intros. by rewrite members_insert, decide_False. Qed.

Lemma fresh_not_allocated (h : store) :
  fresh (dom h) ∉ dom h.
Proof. apply is_fresh. Qed.

(** Unfolds the monad in the goal. *)
Ltac run :=
  unfold mbind, mret, M_bind, M_ret, new_Set, Set_has, Set_add, Set_delete,
    Set_size, Set_values; cbv beta iota zeta.

Lemma elem_of_Set_add s c x : x ∈ SetValue.add s c ↔ x ∈ s ∨ x = c.
Proof.
  unfold SetValue.add, SetValue.has. case_bool_decide as Hin.
  - split; [auto | by intros [?| ->]].
  - by rewrite elem_of_app, list_elem_of_singleton.
Qed.

Lemma elem_of_Set_delete s c x : x ∈ SetValue.delete s c ↔ x ∈ s ∧ x ≠ c.
Proof. unfold SetValue.delete. rewrite list_elem_of_filter. tauto. Qed.

Lemma Set_add_not_empty s c : SetValue.add s c ≠ [].
Proof.
  intros E. assert (c ∈ SetValue.add s c) as Hc by (apply elem_of_Set_add; auto).
  rewrite E in Hc. by apply not_elem_of_nil in Hc.
Qed.

Lemma for_of_cons {A S : Type} (x : A) (l : list A) (s : S) body h :
  for_of (x :: l) s body h = for_of l (body s x h).1 body (body s x h).2.
Proof. simpl. run. by destruct (body s x h). Qed.

(** ** Maps *)

Section JsMap_facts.
Context {K V : Type} `{EqDecision K}.
Implicit Types (m : list (K * V)) (k : K) (v : V).

Lemma Map_get_Some_elem m k v : Map_get m k = Some v → (k, v) ∈ m.
Proof.
  induction m as [|[k' v'] m IH]; simpl; [done|].
  case_decide; intros E; simplify_eq; set_solver.
Qed.

Lemma Map_get_None m k : Map_get m k = None ↔ k ∉ Map_keys m.
Proof.
  unfold Map_keys. induction m as [|[k' v'] m IH]; simpl.
  - split; [intros _; apply not_elem_of_nil | done].
  - rewrite not_elem_of_cons. case_decide as E.
    + split; [done | by intros []].
    + rewrite IH. tauto.
Qed.

Lemma Map_get_elem m k v :
  NoDup (Map_keys m) → (k, v) ∈ m → Map_get m k = Some v.
Proof.
  unfold Map_keys. induction m as [|[k' v'] m IH]; simpl.
  - intros _ Hin. by apply not_elem_of_nil in Hin.
  - rewrite NoDup_cons. intros [Hk Hm] Hin.
    apply elem_of_cons in Hin as [Heq|Hin].
    + simplify_eq. by rewrite decide_True.
    + rewrite decide_False; [by apply IH|].
      intros ->. apply Hk. apply list_elem_of_fmap. by exists (k', v).
Qed.

Lemma Map_get_delete m k k' :
  Map_get (Map_delete m k) k' =
    if decide (k' = k) then None else Map_get m k'.
Proof.
  unfold Map_delete. induction m as [|[k0 v0] m IH]; simpl.
  - by case_decide.
  - rewrite filter_cons. simpl. destruct (decide (k0 ≠ k)) as [Hne|Heq]; simpl.
    + rewrite IH. repeat case_decide; congruence.
    + apply dec_stable in Heq. subst k0. rewrite IH.
      repeat case_decide; congruence.
Qed.

Lemma Map_get_set m k v k' :
  Map_get (Map_set m k v) k' = if decide (k' = k) then Some v else Map_get m k'.
Proof.
  induction m as [|[k0 v0] m IH]; simpl.
  - repeat case_decide; congruence.
  - destruct (decide (k = k0)); simpl; [|rewrite IH];
      repeat case_decide; congruence.
Qed.

Lemma Map_set_new m k v : k ∉ Map_keys m → Map_set m k v = m ++ [(k, v)].
Proof.
  unfold Map_keys. induction m as [|[k0 v0] m IH]; simpl; [done|].
  rewrite not_elem_of_cons. intros [Hne Hk].
  rewrite decide_False by done. by rewrite IH.
Qed.

Lemma Map_set_keys_old m k v : k ∈ Map_keys m → Map_keys (Map_set m k v) = Map_keys m.
Proof.
  unfold Map_keys. induction m as [|[k0 v0] m IH]; simpl.
  - intros Hin. by apply not_elem_of_nil in Hin.
  - intros Hin. case_decide; simpl; [by subst|].
    f_equal. apply IH. apply elem_of_cons in Hin as [?|?]; [congruence|done].
Qed.

Lemma Map_set_keys_once m k v :
  NoDup (Map_keys m) → NoDup (Map_keys (Map_set m k v)).
Proof.
  intros Hnd. destruct (decide (k ∈ Map_keys m)) as [Hin|Hin].
  - by rewrite Map_set_keys_old.
  - rewrite Map_set_new by done. unfold Map_keys. rewrite fmap_app.
    apply NoDup_app. split; [done|]. split; [|apply NoDup_singleton].
    intros x Hx Hx'. apply list_elem_of_singleton in Hx'. by subst x.
Qed.

Lemma Map_delete_keys_once m k :
  NoDup (Map_keys m) → NoDup (Map_keys (Map_delete m k)).
Proof.
  unfold Map_keys, Map_delete. induction m as [|[k0 v0] m IH]; simpl; [done|].
  rewrite NoDup_cons. intros [Hk0 Hnd]. rewrite filter_cons. simpl.
  case_decide; [|by apply IH]. simpl. apply NoDup_cons. split; [|by apply IH].
  intros Hin. apply Hk0. apply list_elem_of_fmap in Hin as (e & -> & He).
  apply list_elem_of_filter in He as [_ He]. apply list_elem_of_fmap. by exists e.
Qed.

End JsMap_facts.

(** ** [toBucketSets] *)

(** C2, at the empty map: [toBucketSets] returns an array of length 1, whose
    only slot holds a new, empty set. *)
Theorem toBucketSets_empty_map h :
  let array := (toBucketSets [] h).1 in
  let h' := (toBucketSets [] h).2 in
  length array = 1
  ∧ (∃ s, array = [Some s] ∧ (s ∉ dom h) ∧ h' !! s = Some []).
Proof.
  simpl. split; [done|]. exists (fresh (dom h)).
  split; [done|]. split; [apply fresh_not_allocated | apply lookup_insert_eq].
Qed.

Section toBucketSets_facts.










End toBucketSets_facts.


(** ** [practice] *)

Section practice_facts.
Context (h : store) (buckets : BucketArray) (day : Z).
Context (p : loc).

Let add_card (_ : unit) (c : Flashcard) : M unit := Set_add p c.

Let visit (_ : unit) (bucketIndex : nat) : M unit :=
  match Array_get buckets bucketIndex with
  | Some bucket =>
      if decide (Z.rem (Number_add day 1) (2 ^ Z.of_nat bucketIndex) = 0%Z) then
        cards ← Set_values bucket; for_of cards tt add_card
      else mret tt
  | None => mret tt
  end.

Lemma elem_of_add_all cards : ∀ acc c,
  c ∈ foldl SetValue.add acc cards ↔ c ∈ acc ∨ c ∈ cards.
Proof.
  induction cards as [|x cards IH]; intros acc c; simpl.
  - rewrite elem_of_nil. tauto.
  - rewrite IH, elem_of_Set_add, elem_of_cons. tauto.
Qed.

(** The inner loop adds every card of the bucket to the result. *)
Lemma add_all cards : ∀ acc,
  for_of cards tt add_card (<[p := acc]> h)
  = (tt, <[p := foldl SetValue.add acc cards]> h).
Proof.
  induction cards as [|x cards IH]; intros acc; [done|].
  rewrite for_of_cons. unfold add_card at 1 3. unfold Set_add. cbn [fst snd].
  rewrite members_insert, decide_True by done.
  rewrite insert_insert_eq. apply IH.
Qed.

Hypothesis p_new : p ∉ dom h.
Hypothesis buckets_ok : array_ok h buckets.

Lemma visit_run acc i :
  visit tt i (<[p := acc]> h) =
    (tt, <[p := match Array_get buckets i with
                | Some s =>
                    if decide (Z.rem (Number_add day 1) (2 ^ Z.of_nat i) = 0%Z)
                    then foldl SetValue.add acc (members h s) else acc
                | None => acc
                end]> h).
Proof.
  unfold visit. destruct (Array_get buckets i) as [s|] eqn:E; [|done].
  case_decide; [|done]. run.
  assert (s ≠ p) as Hne.
  { intros ->. apply p_new. apply (buckets_ok i).
    unfold Array_get in E.
    destruct (buckets !! i) as [[x|]|]; simpl in E; by simplify_eq. }
  rewrite members_insert, decide_False by done. apply add_all.
Qed.

(** The outer loop: the result gains the cards of the due buckets among
    those visited. *)
Lemma visit_all idxs : ∀ acc,
  ∃ acc', for_of idxs tt visit (<[p := acc]> h) = (tt, <[p := acc']> h)
    ∧ ∀ c, c ∈ acc' ↔
        c ∈ acc
        ∨ ∃ i s, i ∈ idxs ∧ Array_get buckets i = Some s
                 ∧ Z.rem (Number_add day 1) (2 ^ Z.of_nat i) = 0%Z
                 ∧ c ∈ members h s.
Proof.
  induction idxs as [|i idxs IH]; intros acc.
  - exists acc. split; [done|]. intros c. split; [by left|].
    intros [Hc|(i & s & Hi & _)]; [exact Hc|].
    by apply not_elem_of_nil in Hi.
  - rewrite for_of_cons, visit_run. cbn [fst snd].
    destruct (IH (match Array_get buckets i with
                  | Some s =>
                      if decide (Z.rem (Number_add day 1) (2 ^ Z.of_nat i) = 0%Z)
                      then foldl SetValue.add acc (members h s) else acc
                  | None => acc
                  end)) as (acc' & Hrun & Hacc).
    exists acc'. split; [done|]. intros c. rewrite Hacc. clear Hacc Hrun.
    split.
    + intros [Hc|(j & s & Hj & Hget & Hdue & Hc)].
      * destruct (Array_get buckets i) as [s|] eqn:E; [|by left].
        case_decide as Hdue; [|by left].
        apply elem_of_add_all in Hc as [Hc|Hc]; [by left|].
        right. exists i, s. split; [by left | done].
      * right. exists j, s. split; [by right | done].
    + intros [Hc|(j & s & Hj & Hget & Hdue & Hc)].
      * left. destruct (Array_get buckets i) as [s|]; [|done].
        case_decide; [|done]. apply elem_of_add_all. by left.
      * apply elem_of_cons in Hj as [->|Hj].
        -- left. rewrite Hget, decide_True by done.
           apply elem_of_add_all. by right.
        -- right. exists j, s. done.
Qed.

Lemma add_all_no_dup cards : ∀ acc,
  NoDup acc → NoDup (foldl SetValue.add acc cards).
Proof.
  induction cards as [|x cards IH]; intros acc Hacc; [done|]. simpl. apply IH.
  unfold SetValue.add, SetValue.has. case_bool_decide as Hx; [done|].
  apply NoDup_app. split; [done|]. split; [|apply NoDup_singleton].
  intros y Hy Hy'. apply list_elem_of_singleton in Hy'. by subst y.
Qed.

(** The result never holds a card twice. *)
Lemma visit_all_no_dup idxs : ∀ acc,
  NoDup acc → NoDup (members (for_of idxs tt visit (<[p := acc]> h)).2 p).
Proof.
  induction idxs as [|i idxs IH]; intros acc Hacc.
  - simpl. by rewrite members_insert_eq.
  - rewrite for_of_cons, visit_run. cbn [fst snd]. apply IH.
    destruct (Array_get buckets i); [|done]. case_decide; [|done].
    by apply add_all_no_dup.
Qed.

End practice_facts.

Lemma practice_run h (buckets : BucketArray) (day : Z) :
  practice buckets day h =
    (fresh (dom h),
     (for_of (seq 0 (length buckets)) tt
        (λ _ bucketIndex,
           match Array_get buckets bucketIndex with
           | Some bucket =>
               if decide (Z.rem (Number_add day 1) (2 ^ Z.of_nat bucketIndex) = 0%Z) then
                 cards ← Set_values bucket;
                 for_of cards tt (λ _ card, Set_add (fresh (dom h)) card)
               else mret tt
           | None => mret tt
           end)
        (<[fresh (dom h) := []]> h)).2).
Proof.
  unfold practice. run.
  by destruct (for_of (seq 0 (length buckets)) tt _ (<[fresh (dom h) := []]> h)).
Qed.

Lemma Array_get_Some {A : Type} (a : list (option A)) i x :
  Array_get a i = Some x ↔ a !! i = Some (Some x).
Proof.
  unfold Array_get. destruct (a !! i) as [[y|]|]; simpl; naive_solver.
Qed.

Lemma one_mod_pow2 (i : nat) : (1 `mod` 2 ^ Z.of_nat i = 0)%Z ↔ i = 0.
Proof.
  destruct i as [|i]; [done|]. split; [|done].
  assert (1 < 2 ^ Z.of_nat (S i))%Z as Hlt.
  { rewrite Nat2Z.inj_succ, Z.pow_succ_r by lia.
    assert (0 < 2 ^ Z.of_nat i)%Z by (apply Z.pow_pos_nonneg; lia). lia. }
  rewrite Z.mod_small by lia. done.
Qed.

(** What [practice] returns, with the day number as the code computes it:
    a new set, whose members are the cards of the buckets [i] with
    [dayNumber % 2^i === 0]; the sets of the array are left as they
    were. *)
Lemma practice_result h (buckets : BucketArray) (day : Z) :
  array_ok h buckets →
  let p := (practice buckets day h).1 in
  let h' := (practice buckets day h).2 in
  (p ∉ dom h)
  ∧ (∀ s, s ∈ dom h → h' !! s = h !! s)
  ∧ (∀ c, c ∈ members h' p ↔
        ∃ i s, buckets !! i = Some (Some s)
               ∧ Z.rem (Number_add day 1) (2 ^ Z.of_nat i) = 0%Z
               ∧ c ∈ members h s).
Proof.
  intros Hok p h'. subst p h'. rewrite practice_run. cbn [fst snd].
  set (p := fresh (dom h)).
  assert (p ∉ dom h) as Hp by apply fresh_not_allocated.
  destruct (visit_all h buckets day p Hp Hok (seq 0 (length buckets)) [])
    as (acc & Hrun & Hacc).
  cbv zeta in Hrun. rewrite Hrun. cbn [fst snd]. clear Hrun.
  rewrite members_insert, decide_True by done.
  split; [done|]. split.
  - intros s Hs. rewrite lookup_insert_ne; [done|]. by intros <-.
  - intros c. rewrite Hacc. split.
    + intros [Hc|(i & s & _ & Hget & Hdue & Hc)];
        [by apply not_elem_of_nil in Hc|].
      exists i, s. by apply Array_get_Some in Hget.
    + intros (i & s & Hget & Hdue & Hc). right. exists i, s.
      split; [|split; [by apply Array_get_Some|done]].
      apply elem_of_seq. apply lookup_lt_Some in Hget. lia.
Qed.

(** On the days below 2^53 the day number is [day + 1], and the test of the
    code is [(day + 1) mod 2^i = 0]. *)
Lemma dayNumber_due (day : Z) (i : nat) :
  (0 ≤ day < 2 ^ 53)%Z →
  Z.rem (Number_add day 1) (2 ^ Z.of_nat i) = 0%Z
  ↔ ((day + 1) `mod` 2 ^ Z.of_nat i = 0)%Z.
Proof.
  intros Hday. rewrite Number_add_exact by lia.
  rewrite Z.rem_mod_nonneg; [done | lia | apply pow2_pos; lia].
Qed.

(** C4, as amended.  For a day [0 <= day < 2^53], the set that [practice]
    returns has as members the cards of the buckets [i] of the array with
    [(day + 1) mod 2^i = 0], and no other card.  For every day [day >= 0]
    it is a new set, and the sets of the array are left as they were; on
    day 0 its members are those of bucket 0; and when no bucket of the
    array has a member (so also for the empty array), it has none. *)
Theorem practice_due_buckets h (buckets : BucketArray) (day : Z) :
  (0 ≤ day)%Z →
  array_ok h buckets →
  let p := (practice buckets day h).1 in
  let h' := (practice buckets day h).2 in
  (p ∉ dom h)
  ∧ (∀ s, s ∈ dom h → h' !! s = h !! s)
  ∧ ((day < 2 ^ 53)%Z →
     ∀ c, c ∈ members h' p ↔
        ∃ i s, buckets !! i = Some (Some s)
               ∧ ((day + 1) `mod` 2 ^ Z.of_nat i = 0)%Z
               ∧ c ∈ members h s)
  ∧ (day = 0%Z →
     ∀ c, c ∈ members h' p ↔ ∃ s, buckets !! 0 = Some (Some s) ∧ c ∈ members h s)
  ∧ ((∀ i s, buckets !! i = Some (Some s) → members h s = []) →
     members h' p = []).
Proof.
  intros Hday Hok p h'.
  destruct (practice_result h buckets day Hok) as (Hp & Hold & Hmem).
  fold p h' in Hp, Hold, Hmem.
  split; [done|]. split; [done|]. split; [|split].
  - intros Hlt c. rewrite Hmem.
    split; intros (i & s & Hget & Hdue & Hc); exists i, s;
      (split; [done|split; [|done]]); by apply dayNumber_due.
  - intros E c. rewrite Hmem. split.
    + intros (i & s & Hget & Hdue & Hc).
      apply dayNumber_due in Hdue; [|lia]. rewrite E in Hdue.
      apply one_mod_pow2 in Hdue as ->. by exists s.
    + intros (s & Hget & Hc). exists 0, s. split; [done|]. split; [|done].
      apply dayNumber_due; [lia|]. by rewrite E.
  - intros Hempty. destruct (members h' p) as [|c acc] eqn:E; [done|].
    assert (c ∈ c :: acc) as Hc by (by left).
    apply Hmem in Hc as (i & s & Hget & _ & Hc).
    rewrite (Hempty i s Hget) in Hc. by apply not_elem_of_nil in Hc.
Qed.

Lemma practice_due_buckets_witness :
  let buckets : BucketArray := [Some 0; Some 1] in
  let p := (practice buckets 1 example_store).1 in
  let h' := (practice buckets 1 example_store).2 in
  (p ∉ dom example_store)
  ∧ (∀ s, s ∈ dom example_store → h' !! s = example_store !! s)
  ∧ ((1 < 2 ^ 53)%Z →
     ∀ c, c ∈ members h' p ↔
        ∃ i s, buckets !! i = Some (Some s)
               ∧ ((1 + 1) `mod` 2 ^ Z.of_nat i = 0)%Z
               ∧ c ∈ members example_store s)
  ∧ (1%Z = 0%Z →
     ∀ c, c ∈ members h' p ↔
          ∃ s, buckets !! 0 = Some (Some s) ∧ c ∈ members example_store s)
  ∧ ((∀ i s, buckets !! i = Some (Some s) → members example_store s = []) →
     members h' p = []).
Proof.
  apply (practice_due_buckets example_store [Some 0; Some 1] 1).
  - lia.
  - intros i s Hi. apply elem_of_dom.
    destruct i as [|[|i]]; simpl in Hi; [| |done]; injection Hi as <-; by eexists.
Defined.

(** C4, as stated, on day 2^53 with the buckets [{A, X}] and [{B}]: the
    code's [day + 1] is 2^53 again, which is even, so [practice] returns
    [B], a card of bucket 1 only, though [(2^53 + 1) mod 2^1] is 1. *)
Lemma practice_on_day_2_53 :
  let buckets : BucketArray := [Some 0; Some 1] in
  let day := (2 ^ 53)%Z in
  array_ok example_store buckets
  ∧ cardB ∈ members (practice buckets day example_store).2
              (practice buckets day example_store).1
  ∧ ¬ ∃ i s, buckets !! i = Some (Some s)
             ∧ ((day + 1) `mod` 2 ^ Z.of_nat i = 0)%Z
             ∧ cardB ∈ members example_store s.
Proof.
  split; [|split].
  - intros i s Hi. apply elem_of_dom.
    destruct i as [|[|i]]; simpl in Hi; [| |done]; injection Hi as <-; by eexists.
  - vm_compute. apply list_elem_of_further, list_elem_of_further, list_elem_of_here.
  - intros (i & s & Hi & Hdue & Hc).
    destruct i as [|[|i]]; simpl in Hi; [| |done]; injection Hi as <-.
    + vm_compute in Hc. set_solver.
    + by vm_compute in Hdue.
Qed.

(** The days of the tests: with buckets [{A, X}] and [{B}], day 0 gives the
    cards of bucket 0, and day 1 gives those of both buckets. *)
Example practice_days :
  let buckets : BucketArray := [Some 0; Some 1] in
  members (practice buckets 0 example_store).2 (practice buckets 0 example_store).1
  = [cardA; cardX]
  ∧ members (practice buckets 1 example_store).2 (practice buckets 1 example_store).1
    = [cardA; cardX; cardB].
Proof. by vm_compute. Qed.

(** ** [update] *)

(** *** The scan *)

Lemma find_bucket_store m c h : (find_bucket m c h).2 = h.
Proof.
  induction m as [|[k s] m IH]; [done|]. simpl. run.
  destruct (SetValue.has (members h s) c); [done | apply IH].
Qed.

Lemma find_bucket_None m c h :
  (∀ k s, (k, s) ∈ m → c ∉ members h s) → (find_bucket m c h).1 = None.
Proof.
  induction m as [|[k s] m IH]; intros Hno; [done|]. simpl. run.
  unfold SetValue.has. rewrite bool_decide_eq_false_2.
  - apply IH. intros k' s' Hin. apply (Hno k'). by right.
  - apply (Hno k). by left.
Qed.

Lemma find_bucket_Some m c h b :
  (find_bucket m c h).1 = Some b → ∃ s, (b, s) ∈ m ∧ c ∈ members h s.
Proof.
  induction m as [|[k s] m IH]; [done|]. simpl. run.
  unfold SetValue.has. case_bool_decide as Hc; simpl.
  - intros [= <-]. exists s. split; [by left | done].
  - intros Hb. destruct (IH Hb) as (s' & Hin & Hc'). exists s'. split; [by right | done].
Qed.

Lemma find_bucket_is_Some m c h k s :
  (k, s) ∈ m → c ∈ members h s → is_Some (find_bucket m c h).1.
Proof.
  intros Hin Hc. destruct (find_bucket m c h).1 as [b|] eqn:E; [by eexists|].
  exfalso. revert Hin E. induction m as [|[k' s'] m IH]; intros Hin.
  - by apply not_elem_of_nil in Hin.
  - simpl. run. unfold SetValue.has. case_bool_decide as Hc'; [done|].
    apply elem_of_cons in Hin as [Heq|Hin]; [by simplify_eq | by apply IH].
Qed.

(** The scan stops at the source bucket. *)
Lemma find_bucket_source h (m : BucketMap) c b :
  source_bucket h m c b → (find_bucket m c h).1 = Some b.
Proof.
  intros (before & s & after & -> & Hc & Hno).
  induction before as [|[k' s'] before IH]; simpl; run; unfold SetValue.has.
  - by rewrite bool_decide_eq_true_2.
  - rewrite bool_decide_eq_false_2.
    + apply IH. intros e He. apply Hno. by right.
    + apply (Hno (k', s')). by left.
Qed.

Lemma find_bucket_is_source h (m : BucketMap) c b :
  (find_bucket m c h).1 = Some b → source_bucket h m c b.
Proof.
  induction m as [|[k s] m IH]; [done|]. simpl. run.
  unfold SetValue.has. case_bool_decide as Hc; simpl.
  - intros [= <-]. exists [], s, m. split; [done|]. split; [done|].
    intros e He. by apply not_elem_of_nil in He.
  - intros Hb. destruct (IH Hb) as (before & s' & after & -> & Hc' & Hno).
    exists ((k, s) :: before), s', after. split; [done|]. split; [done|].
    intros e He. apply elem_of_cons in He as [->|He]; [done | by apply Hno].
Qed.

Lemma scan_fails h (m : BucketMap) c :
  (find_bucket m c h).1 = None → ∀ k s, (k, s) ∈ m → c ∉ members h s.
Proof.
  intros Hnone k s Hin Hc.
  destruct (find_bucket_is_Some m c h k s Hin Hc) as [b Hb]. congruence.
Qed.

Lemma update_not_found h (m : BucketMap) c d :
  (find_bucket m c h).1 = None → update m c d h = (m, h).
Proof.
  intros E1. unfold update. run.
  pose proof (find_bucket_store m c h) as E2.
  destruct (find_bucket m c h) as [r h']. simpl in *. by subst.
Qed.

(** C7. When the card is in no bucket of the map, [update] returns the map
    it was given, with the same keys holding the same sets, and leaves the
    store as it was, whatever the difficulty; there is no error result. *)
Theorem update_unknown_card h (m : BucketMap) c d :
  (∀ k s, (k, s) ∈ m → c ∉ members h s) →
  update m c d h = (m, h).
Proof.
  intros Hno. apply update_not_found. by apply find_bucket_None.
Qed.

Lemma update_unknown_card_witness :
  update [(0, 0)] cardX Easy {[0 := []]} = ([(0, 0)], {[0 := []]}).
Proof.
  apply (update_unknown_card {[0 := []]} [(0, 0)] cardX Easy).
  intros k s Hin. apply list_elem_of_singleton in Hin. simplify_eq.
  vm_compute. apply not_elem_of_nil.
Defined.

(** C1, at the input [{0: {X}}], card [X], [Easy]: the map returned is
    [{1: {X}}], and the set that the caller's map holds under key 0, which
    had the member [X] before the call, has none after it. *)
Theorem update_empties_callers_set :
  let h : store := {[0 := [cardX]]} in
  let buckets : BucketMap := [(0, 0)] in
  bucket h buckets 0 = Some [cardX]
  ∧ bucket (update buckets cardX Easy h).2 buckets 0 = Some []
  ∧ bucket (update buckets cardX Easy h).2 (update buckets cardX Easy h).1 1
    = Some [cardX].
Proof. vm_compute. done. Qed.

(** *** The buckets after the call *)

Lemma in_bucket_bucket h (m : BucketMap) k c :
  in_bucket h m k c ↔ ∃ l, bucket h m k = Some l ∧ c ∈ l.
Proof.
  unfold in_bucket, bucket. destruct (Map_get m k) as [s|]; simpl.
  - split.
    + intros (s' & [= <-] & Hc). by eexists.
    + intros (l & [= <-] & Hc). by eexists.
  - split; [by intros (? & ? & _) | by intros (? & ? & _)].
Qed.

Lemma well_formed_store_ok h (m : BucketMap) : well_formed h m → store_ok h m.
Proof.
  intros [Hkeys Halloc Hne Hone]. split; [done | done |].
  intros k1 k2 s H1 H2.
  destruct (members h s) as [|x l] eqn:E; [by destruct (Hne k1 s H1)|].
  apply (Hone x); exists s; (split; [done|]); rewrite E; by left.
Qed.

(** *** Counting the cards *)

Lemma card_count_insert_other h (m : BucketMap) s0 x :
  s0 ∉ m.*2 → card_count (<[s0 := x]> h) m = card_count h m.
Proof.
  unfold card_count. induction m as [|[k s] m IH]; simpl; [done|].
  rewrite not_elem_of_cons. intros [Hne Hm].
  by rewrite IH, members_insert_ne.
Qed.

Lemma card_count_insert h (m : BucketMap) k0 s0 x :
  NoDup m.*2 → (k0, s0) ∈ m →
  card_count (<[s0 := x]> h) m + length (members h s0)
  = card_count h m + length x.
Proof.
  induction m as [|[k s] m IH]; simpl.
  - intros _ Hin. by apply not_elem_of_nil in Hin.
  - rewrite NoDup_cons. intros [Hs Hnd] Hin. unfold card_count in *. simpl.
    apply elem_of_cons in Hin as [Heq|Hin].
    + injection Heq as <- <-. rewrite members_insert_eq.
      pose proof (card_count_insert_other h m s0 x Hs) as Ho.
      unfold card_count in Ho. rewrite Ho. lia.
    + rewrite members_insert_ne.
      * specialize (IH Hnd Hin). lia.
      * intros <-. apply Hs. apply list_elem_of_fmap. by exists (k0, s0).
Qed.

Lemma card_count_delete h (m : BucketMap) b s :
  NoDup (Map_keys m) → Map_get m b = Some s →
  card_count h (Map_delete m b) + length (members h s) = card_count h m.
Proof.
  unfold card_count, Map_keys, Map_delete.
  induction m as [|[k0 s0] m IH]; simpl; [done|].
  rewrite NoDup_cons. intros [Hk Hnd]. rewrite filter_cons. simpl.
  destruct (decide (b = k0)) as [->|Hne].
  - intros [= ->]. rewrite decide_False by (by intros ?).
    assert (filter (λ e : nat * loc, e.1 ≠ k0) m = m) as ->; [|lia].
    clear IH Hnd. induction m as [|[k1 s1] m IH]; [done|].
    simpl in Hk. apply not_elem_of_cons in Hk as [Hne Hk].
    rewrite filter_cons. simpl. rewrite decide_True by done. by rewrite IH.
  - intros Hb. rewrite decide_True by done. simpl. specialize (IH Hnd Hb). lia.
Qed.

Lemma Map_set_same (m : BucketMap) k v : Map_get m k = Some v → Map_set m k v = m.
Proof.
  induction m as [|[k0 v0] m IH]; simpl; [done|].
  case_decide; [by intros [= ->]; subst | intros Hk; by rewrite IH].
Qed.

Lemma store_ok_sets_once h (m : BucketMap) : store_ok h m → NoDup m.*2.
Proof.
  intros [Hkeys _ Hdist]. revert Hkeys Hdist. unfold Map_keys.
  induction m as [|[k s] m IH]; simpl; [constructor|].
  rewrite NoDup_cons. intros [Hk Hnd] Hdist. apply NoDup_cons. split.
  - intros Hin. apply list_elem_of_fmap in Hin as ([k' s'] & -> & Hin). simpl in *.
    apply Hk. assert (k = k') as ->; [|apply list_elem_of_fmap; by exists (k', s')].
    apply (Hdist k k' s').
    + by rewrite decide_True.
    + rewrite decide_False.
      * by apply Map_get_elem.
      * intros ->. apply Hk. apply list_elem_of_fmap. by exists (k, s').
  - apply IH; [done|]. intros k1 k2 s0 H1 H2.
    assert (∀ k' s', Map_get m k' = Some s' → k' ≠ k) as Hne.
    { intros k' s' Hk' ->. apply Hk. apply Map_get_Some_elem in Hk'.
      apply list_elem_of_fmap. by exists (k, s'). }
    apply (Hdist k1 k2 s0).
    + rewrite decide_False; [done | by apply (Hne k1 s0)].
    + rewrite decide_False; [done | by apply (Hne k2 s0)].
Qed.

Lemma Map_delete_sets_once (m : BucketMap) b :
  NoDup m.*2 → NoDup (Map_delete m b).*2.
Proof.
  unfold Map_delete. induction m as [|[k s] m IH]; simpl; [done|].
  rewrite NoDup_cons. intros [Hs Hnd]. rewrite filter_cons. simpl.
  case_decide; [|by apply IH]. simpl. apply NoDup_cons. split; [|by apply IH].
  intros Hin. apply Hs. apply list_elem_of_fmap in Hin as (e & -> & He).
  apply list_elem_of_filter in He as [_ He]. apply list_elem_of_fmap. by exists e.
Qed.

Lemma length_Set_delete (l : list Flashcard) c :
  NoDup l → c ∈ l → length (SetValue.delete l c) + 1 = length l.
Proof.
  unfold SetValue.delete. induction l as [|x l IH]; simpl.
  - intros _ Hc. by apply not_elem_of_nil in Hc.
  - rewrite NoDup_cons. intros [Hx Hnd] Hc. rewrite filter_cons.
    destruct (decide (x ≠ c)) as [Hne|Heq].
    + simpl. apply elem_of_cons in Hc as [->|Hc]; [done|]. by rewrite IH.
    + apply dec_stable in Heq. subst x.
      assert (filter (λ y, y ≠ c) l = l) as ->; [|lia].
      clear IH Hc Hnd. induction l as [|y l IH]; [done|].
      apply not_elem_of_cons in Hx as [Hne Hx].
      rewrite filter_cons. rewrite decide_True by done. by rewrite IH.
Qed.

Lemma length_Set_add (l : list Flashcard) c :
  c ∉ l → length (SetValue.add l c) = length l + 1.
Proof.
  intros Hc. unfold SetValue.add, SetValue.has.
  rewrite bool_decide_eq_false_2 by done. by rewrite length_app.
Qed.

Section update_facts.
Context (h : store) (m : BucketMap).
Context (c : Flashcard) (d : AnswerDifficulty).
Context (b : nat) (s : loc).

Hypothesis found : (find_bucket m c h).1 = Some b.
Hypothesis current : Map_get m b = Some s.

Let cards := SetValue.delete (members h s) c.
Let h1 : store := <[s := cards]> h.
Let m1 : BucketMap := if decide (length cards = 0) then Map_delete m b else m.
Let nb := new_bucket d b.

(** [update] on a card that the scan finds in bucket [b]. *)
Lemma update_run :
  update m c d h =
    match Map_get m1 nb with
    | Some s2 => (Map_set m1 nb s2, <[s2 := SetValue.add (members h1 s2) c]> h1)
    | None =>
        (Map_set m1 nb (fresh (dom h1)),
         <[fresh (dom h1) := [c]]> (<[fresh (dom h1) := []]> h1))
    end.
Proof.
  unfold update. run.
  pose proof (find_bucket_store m c h) as Hst.
  destruct (find_bucket m c h) as [r h0]. simpl in found, Hst. subst r h0.
  rewrite current.
  rewrite members_insert_eq.
  fold cards. fold h1. fold m1. fold nb.
  destruct (Map_get m1 nb) as [s2|]; cbv beta iota.
  - done.
  - by rewrite members_insert_eq.
Qed.

Hypothesis ok : store_ok h m.

Lemma other_set k sk : Map_get m k = Some sk → k ≠ b → sk ≠ s.
Proof. intros Hk Hne ->. apply Hne. by apply (sets_distinct h m ok k b s). Qed.

Lemma not_new_set k sk : Map_get m k = Some sk → sk ≠ fresh (dom h1).
Proof.
  intros Hk E. pose proof (sets_allocated h m ok k sk Hk) as Hin.
  assert (sk ∈ dom h1) as Hin1.
  { unfold h1. rewrite dom_insert_L. by apply elem_of_union_r. }
  rewrite E in Hin1. by apply fresh_not_allocated in Hin1.
Qed.

(** The buckets of the map that [update] returns: the card's new bucket
    gains the card, the bucket it was in loses it and goes when nothing is
    left in it, and the other buckets are as they were. *)
Lemma update_buckets k :
  bucket (update m c d h).2 (update m c d h).1 k =
    if decide (k = nb) then
      Some (SetValue.add (if decide (k = b) then cards
                          else default [] (bucket h m k)) c)
    else if decide (k = b) then
      (if decide (cards = []) then None else Some cards)
    else bucket h m k.
Proof.
  assert (∀ k' sk, Map_get m k' = Some sk → k' ≠ b →
            members h1 sk = members h sk) as Hh1.
  { intros k' sk Hk' Hne. unfold h1.
    rewrite members_insert_ne; [done|].
    intros <-. by apply (other_set k' s). }
  assert (members h1 s = cards) as Hs.
  { unfold h1. by rewrite members_insert_eq. }
  assert (∀ k', Map_get m1 k' =
            if decide (k' = b) then
              (if decide (cards = []) then None else Some s)
            else Map_get m k') as Hm1.
  { intros k'. unfold m1. destruct (decide (length cards = 0)) as [Hz|Hz].
    - apply length_zero_iff_nil in Hz. rewrite Map_get_delete.
      case_decide; [by rewrite decide_True|done].
    - case_decide; [subst k'|done].
      rewrite decide_False; [done|]. intros E. by rewrite E in Hz. }
  assert (∀ sk x, sk ≠ s → sk ≠ fresh (dom h1) →
            members (<[fresh (dom h1) := x]> (<[fresh (dom h1) := []]> h1)) sk
            = members h sk) as Hnew.
  { intros sk x Hne1 Hne2. rewrite !members_insert_ne by done.
    unfold h1. by rewrite members_insert_ne. }
  destruct (decide (k = nb)) as [Hk|Hk].
  - (* the bucket the card goes to *)
    subst k. rewrite update_run. unfold bucket. rewrite Hm1.
    destruct (decide (nb = b)) as [Hnb|Hnb].
    + destruct (decide (cards = [])) as [Hc|Hc]; cbn [fst snd].
      * rewrite Map_get_set, decide_True by done. simpl.
        by rewrite members_insert_eq, Hc.
      * rewrite Map_get_set, decide_True by done. simpl.
        by rewrite members_insert_eq, Hs.
    + destruct (Map_get m nb) as [s2|] eqn:E2; cbn [fst snd];
        rewrite Map_get_set, decide_True by done; simpl;
        rewrite members_insert_eq; [|done].
      by rewrite (Hh1 nb).
  - (* the other buckets *)
    assert (∀ (m2 : BucketMap) (s2 : loc),
              Map_get (Map_set m2 nb s2) k = Map_get m2 k) as Hset.
    { intros m2 s2. by rewrite Map_get_set, decide_False. }
    assert (bucket (update m c d h).2 m1 k =
              if decide (k = b) then
                (if decide (cards = []) then None else Some cards)
              else bucket h m k) as Hgoal; [|clear Hnew].
    { rewrite update_run. unfold bucket. rewrite !Hm1.
      destruct (decide (k = b)) as [->|Hkb].
      - destruct (decide (cards = [])) as [Hc|Hc]; [by destruct (decide (nb = b))|].
        rewrite decide_False by done.
        destruct (Map_get m nb) as [s2|] eqn:E2; cbn [fst snd]; simpl.
        + rewrite members_insert_ne; [by rewrite Hs|].
          apply (other_set nb); [done|congruence].
        + rewrite !members_insert_ne; [by rewrite Hs| |];
            apply not_eq_sym; by apply (not_new_set b).
      - destruct (Map_get m k) as [sk|] eqn:Ek; simpl;
          [|by repeat case_match].
        f_equal.
        assert (sk ≠ s) as Hsk by (by apply (other_set k)).
        assert (sk ≠ fresh (dom h1)) as Hskf by (by apply (not_new_set k)).
        destruct (decide (nb = b)) as [Hnb|Hnb].
        + destruct (decide (cards = [])) as [Hc|Hc]; cbn [fst snd].
          * by apply Hnew.
          * rewrite members_insert_ne by done. by apply (Hh1 k).
        + destruct (Map_get m nb) as [s2|] eqn:E2; cbn [fst snd].
          * rewrite members_insert_ne; [by apply (Hh1 k)|].
            intros ->. apply Hk. by apply (sets_distinct h m ok k nb sk).
          * by apply Hnew. }
    rewrite <- Hgoal. unfold bucket. f_equal.
    rewrite update_run. by destruct (Map_get m1 nb); cbn [fst snd]; rewrite Hset.
Qed.

Lemma current_map_get k :
  Map_get m1 k =
    if decide (k = b) then (if decide (cards = []) then None else Some s)
    else Map_get m k.
Proof.
  unfold m1. destruct (decide (length cards = 0)) as [Hz|Hz].
  - apply length_zero_iff_nil in Hz. rewrite Map_get_delete.
    case_decide; [by rewrite decide_True|done].
  - case_decide; [subst k|done].
    rewrite decide_False; [done|]. intros E. by rewrite E in Hz.
Qed.

(** The set that the caller's map holds for the bucket the card leaves is
    the one the card is deleted from. *)
Lemma update_source_set :
  nb ≠ b → members (update m c d h).2 s = cards.
Proof.
  intros Hnb. rewrite update_run.
  assert (members h1 s = cards) as Hs by (unfold h1; by rewrite members_insert_eq).
  destruct (Map_get m1 nb) as [s2|] eqn:E2; cbn [fst snd].
  - rewrite current_map_get, decide_False in E2 by done.
    rewrite members_insert_ne; [done|]. by apply (other_set nb).
  - rewrite !members_insert_ne; [done| |];
      apply not_eq_sym; by apply (not_new_set b).
Qed.

(** The caller's map, read after the call. *)
Lemma update_callers_buckets k :
  bucket (update m c d h).2 m k =
    if decide (k = b) then
      Some (if decide (nb = b ∧ cards ≠ []) then SetValue.add cards c else cards)
    else if decide (k = nb) then (λ l, SetValue.add l c) <$> bucket h m k
    else bucket h m k.
Proof.
  assert (members h1 s = cards) as Hs by (unfold h1; by rewrite members_insert_eq).
  assert (∀ k' sk, Map_get m k' = Some sk → k' ≠ b →
            members h1 sk = members h sk) as Hh1.
  { intros k' sk Hk' Hne. unfold h1. rewrite members_insert_ne; [done|].
    intros <-. by apply (other_set k' s). }
  rewrite update_run, current_map_get. unfold bucket.
  destruct (decide (k = b)) as [->|Hkb].
  - rewrite current. simpl. f_equal.
    assert (s ≠ fresh (dom h1)) as Hsf by (by apply (not_new_set b)).
    destruct (decide (nb = b)) as [Hnb|Hnb].
    + destruct (decide (cards = [])) as [Hc|Hc]; cbn [fst snd].
      * rewrite decide_False by (by intros [_ ?]).
        by rewrite !members_insert_ne by done.
      * rewrite decide_True by done. by rewrite members_insert_eq, Hs.
    + rewrite decide_False by (by intros [? _]).
      destruct (Map_get m nb) as [s2|] eqn:E2; cbn [fst snd].
      * rewrite members_insert_ne; [done|]. by apply (other_set nb).
      * by rewrite !members_insert_ne by done.
  - destruct (Map_get m k) as [sk|] eqn:Ek; simpl;
      [|by destruct (decide (k = nb))].
    assert (sk ≠ s) as Hsk by (by apply (other_set k)).
    assert (sk ≠ fresh (dom h1)) as Hskf by (by apply (not_new_set k)).
    destruct (decide (k = nb)) as [Hk|Hk].
    + subst k. rewrite decide_False by congruence. rewrite Ek. cbn [fst snd].
      simpl. f_equal. rewrite members_insert_eq. by rewrite (Hh1 nb).
    + f_equal. destruct (decide (nb = b)) as [Hnb|Hnb].
      * destruct (decide (cards = [])) as [Hc|Hc]; cbn [fst snd].
        -- rewrite !members_insert_ne by done. by apply (Hh1 k).
        -- rewrite members_insert_ne by done. by apply (Hh1 k).
      * destruct (Map_get m nb) as [s2|] eqn:E2; cbn [fst snd].
        -- rewrite members_insert_ne; [by apply (Hh1 k)|].
           intros ->. apply Hk. by apply (sets_distinct h m ok k nb sk).
        -- rewrite !members_insert_ne by done. by apply (Hh1 k).
Qed.

(** The map returned is a [Map] of [Set] objects of the store. *)
Lemma update_keys_once : NoDup (Map_keys (update m c d h).1).
Proof.
  rewrite update_run.
  assert (NoDup (Map_keys m1)) as Hm1.
  { unfold m1. case_decide; [apply Map_delete_keys_once|]; apply (keys_once h m ok). }
  destruct (Map_get m1 nb); cbn [fst snd]; by apply Map_set_keys_once.
Qed.

Lemma update_allocated k sk :
  Map_get (update m c d h).1 k = Some sk → sk ∈ dom (update m c d h).2.
Proof.
  rewrite update_run.
  assert (∀ k' s', Map_get m1 k' = Some s' → s' ∈ dom h1) as Hm1.
  { intros k' s'. rewrite current_map_get. unfold h1. rewrite dom_insert_L.
    case_decide; [case_decide; [done|]; intros [= <-]; set_solver|].
    intros Hk'. apply elem_of_union_r. by apply (sets_allocated h m ok k'). }
  destruct (Map_get m1 nb) as [s2|] eqn:E2; cbn [fst snd];
    rewrite Map_get_set; case_decide; intros Hk.
  - injection Hk as <-. rewrite dom_insert_L. set_solver.
  - rewrite dom_insert_L. apply elem_of_union_r. by apply (Hm1 k).
  - injection Hk as <-. rewrite dom_insert_L. set_solver.
  - rewrite !dom_insert_L. do 2 apply elem_of_union_r. by apply (Hm1 k).
Qed.

Hypothesis set_no_dup : NoDup (members h s).
Hypothesis only_here : ∀ k, in_bucket h m k c → k = b.

(** The map returned has as many cards as the map given. *)
Lemma update_card_count :
  card_count (update m c d h).2 (update m c d h).1 = card_count h m.
Proof.
  assert (c ∈ members h s) as Hc.
  { destruct (find_bucket_Some m c h b found) as (s' & Hin & Hc).
    apply (Map_get_elem _ _ _ (keys_once h m ok)) in Hin.
    rewrite current in Hin. by injection Hin as <-. }
  pose proof (store_ok_sets_once h m ok) as Hlocs.
  pose proof (length_Set_delete _ c set_no_dup Hc) as Hlen. fold cards in Hlen.
  pose proof (card_count_insert h m b s cards Hlocs (Map_get_Some_elem _ _ _ current))
    as E1. fold h1 in E1.
  assert (members h1 s = cards) as Hs by (unfold h1; by rewrite members_insert_eq).
  assert (card_count h1 m1 = card_count h1 m) as E2.
  { unfold m1. case_decide as Hz; [|done].
    pose proof (card_count_delete h1 m b s (keys_once h m ok) current) as E.
    rewrite Hs in E. lia. }
  assert (NoDup m1.*2) as Hlocs1.
  { unfold m1. case_decide; [by apply Map_delete_sets_once | done]. }
  assert (∀ k sk, (k, sk) ∈ m1 → (k, sk) ∈ m) as Hsub.
  { intros k sk. unfold m1. case_decide; [|done]. unfold Map_delete.
    rewrite list_elem_of_filter. by intros [_ ?]. }
  rewrite update_run. destruct (Map_get m1 nb) as [s2|] eqn:Eget; cbn [fst snd].
  - rewrite (Map_set_same m1 nb s2 Eget).
    pose proof (card_count_insert h1 m1 nb s2 (SetValue.add (members h1 s2) c)
                  Hlocs1 (Map_get_Some_elem _ _ _ Eget)) as E3.
    assert (c ∉ members h1 s2) as Hc2.
    { rewrite current_map_get in Eget. destruct (decide (nb = b)) as [Hnb|Hnb].
      - case_decide; [done|]. injection Eget as <-. rewrite Hs. unfold cards.
        rewrite elem_of_Set_delete. by intros [_ ?].
      - unfold h1.
        rewrite members_insert_ne by (apply not_eq_sym; by apply (other_set nb)).
        intros Hin. apply Hnb. apply only_here. by exists s2. }
    rewrite (length_Set_add _ _ Hc2) in E3. lia.
  - assert (nb ∉ Map_keys m1) as Hnb by (by apply Map_get_None).
    rewrite (Map_set_new m1 nb _ Hnb). unfold card_count at 1.
    rewrite sum_list_with_app. simpl. rewrite members_insert_eq. simpl.
    assert (fresh (dom h1) ∉ m1.*2) as Hf.
    { intros Hin. apply list_elem_of_fmap in Hin as ([k sk] & Hsk & Hin).
      simpl in Hsk. apply Hsub in Hin.
      apply (Map_get_elem _ _ _ (keys_once h m ok)) in Hin.
      by apply (not_new_set k sk). }
    pose proof (card_count_insert_other (<[fresh (dom h1) := []]> h1) m1
                  (fresh (dom h1)) [c] Hf) as E3.
    pose proof (card_count_insert_other h1 m1 (fresh (dom h1)) [] Hf) as E4.
    unfold card_count in *. rewrite E3, E4. lia.
Qed.

End update_facts.

Lemma scan_result h (m : BucketMap) c b :
  NoDup (Map_keys m) → (find_bucket m c h).1 = Some b →
  ∃ s, Map_get m b = Some s ∧ c ∈ members h s.
Proof.
  intros Hnd Hb. destruct (find_bucket_Some m c h b Hb) as (s & Hin & Hc).
  exists s. split; [by apply Map_get_elem | done].
Qed.

Lemma scan_finds h (m : BucketMap) c b :
  NoDup (Map_keys m) → in_bucket h m b c →
  (∀ k, in_bucket h m k c → k = b) →
  (find_bucket m c h).1 = Some b.
Proof.
  intros Hnd (s & Hs & Hc) Honly.
  destruct (find_bucket_is_Some m c h b s) as [b' Hb']; [|done|].
  { by apply Map_get_Some_elem. }
  rewrite Hb'. f_equal. apply Honly.
  destruct (scan_result h m c b' Hnd Hb') as (s' & Hs' & Hc'). by exists s'.
Qed.

Section update_moves.
Context (h : store) (m : BucketMap).
Context (c : Flashcard) (d : AnswerDifficulty).
Context (b : nat) (s : loc).

Hypothesis found : (find_bucket m c h).1 = Some b.
Hypothesis current : Map_get m b = Some s.
Hypothesis ok : store_ok h m.

Let m' := (update m c d h).1.
Let h' := (update m c d h).2.

(** Where the card is after the call. *)
Lemma update_card_moved k :
  in_bucket h' m' k c ↔ k = new_bucket d b ∨ (k ≠ b ∧ in_bucket h m k c).
Proof.
  rewrite !in_bucket_bucket. unfold h', m'.
  rewrite (update_buckets h m c d b s found current ok k).
  destruct (decide (k = new_bucket d b)) as [Hk|Hk].
  - split; [by left|]. intros _. eexists. split; [done|].
    apply elem_of_Set_add. by right.
  - destruct (decide (k = b)) as [Hkb|Hkb].
    + split; [|intros [?|[? _]]; done].
      intros (l & Hl & Hc). exfalso. case_decide; [done|].
      simplify_eq. apply elem_of_Set_delete in Hc. by destruct Hc.
    + split; [by right | by intros [?|[_ ?]]].
Qed.

(** The other cards stay where they are. *)
Lemma update_other_cards k x :
  x ≠ c → in_bucket h' m' k x ↔ in_bucket h m k x.
Proof.
  intros Hx. rewrite !in_bucket_bucket. unfold h', m'.
  rewrite (update_buckets h m c d b s found current ok k).
  assert (bucket h m b = Some (members h s)) as Hb
    by (unfold bucket; by rewrite current).
  assert (∀ l, x ∈ SetValue.delete l c ↔ x ∈ l) as Hdel.
  { intros l. rewrite elem_of_Set_delete. tauto. }
  assert (∀ l, x ∈ SetValue.add l c ↔ x ∈ l) as Hadd.
  { intros l. rewrite elem_of_Set_add. tauto. }
  destruct (decide (k = new_bucket d b)) as [Hk|Hk].
  - destruct (decide (k = b)) as [Hkb|Hkb].
    + rewrite Hkb, Hb. split.
      * intros (l & [= <-] & Hl). rewrite Hadd, Hdel in Hl. by (eexists; split; [reflexivity|]).
      * intros (l & [= <-] & Hl). eexists. split; [done|]. by rewrite Hadd, Hdel.
    + destruct (bucket h m k) as [l0|]; simpl.
      * split.
        -- intros (l & [= <-] & Hl). rewrite Hadd in Hl. by (eexists; split; [reflexivity|]).
        -- intros (l & [= <-] & Hl). eexists. split; [done|]. by rewrite Hadd.
      * split.
        -- intros (l & [= <-] & Hl). rewrite Hadd in Hl.
           by apply not_elem_of_nil in Hl.
        -- by intros (l & ? & _).
  - destruct (decide (k = b)) as [Hkb|Hkb]; [|done].
    rewrite Hkb, Hb. destruct (decide (SetValue.delete (members h s) c = []))
      as [He|He].
    + split; [by intros (l & ? & _)|].
      intros (l & [= <-] & Hl). rewrite <- Hdel, He in Hl.
      by apply not_elem_of_nil in Hl.
    + split.
      * intros (l & [= <-] & Hl). rewrite Hdel in Hl. by (eexists; split; [reflexivity|]).
      * intros (l & [= <-] & Hl). eexists. split; [done|]. by rewrite Hdel.
Qed.

(** No bucket of the result is empty when none was. *)
Lemma update_buckets_not_empty :
  no_empty_buckets h m → no_empty_buckets h' m'.
Proof.
  intros Hne k sk Hk.
  assert (bucket h' m' k = Some (members h' sk)) as Hb
    by (unfold bucket; by rewrite Hk).
  unfold h', m' in Hb.
  rewrite (update_buckets h m c d b s found current ok k) in Hb.
  fold h' in Hb. destruct (decide (k = new_bucket d b)).
  - injection Hb as <-. apply Set_add_not_empty.
  - destruct (decide (k = b)).
    + case_decide; [done|]. by injection Hb as <-.
    + unfold bucket in Hb. destruct (Map_get m k) as [s0|] eqn:E; [|done].
      simpl in Hb. injection Hb as <-. by apply (Hne k).
Qed.

(** The key of the bucket the card leaves goes with its last card, unless
    the card is put back there. *)
Lemma update_deletes_empty_bucket :
  SetValue.delete (members h s) c = [] → new_bucket d b ≠ b →
  Map_get m' b = None.
Proof.
  intros He Hnb.
  pose proof (update_buckets h m c d b s found current ok b) as Hb.
  rewrite decide_False in Hb by done.
  rewrite decide_True in Hb by done. rewrite decide_True in Hb by done.
  fold h' m' in Hb. unfold bucket in Hb. by destruct (Map_get m' b).
Qed.

Lemma card_here : c ∈ members h s.
Proof.
  destruct (scan_result h m c b (keys_once h m ok) found) as (s' & Hs' & Hc).
  rewrite current in Hs'. by injection Hs' as <-.
Qed.

(** No card of the result is in two buckets when none was. *)
Lemma update_one_bucket :
  one_bucket_per_card h m → one_bucket_per_card h' m'.
Proof.
  intros Hone x k1 k2 H1 H2. destruct (decide (x = c)) as [->|Hx].
  - assert (∀ k, in_bucket h' m' k c → k = new_bucket d b) as Hk.
    { intros k Hk. apply update_card_moved in Hk as [?|[Hne Hk]]; [done|].
      destruct Hne. apply (Hone c); [done|]. exists s. split; [done|apply card_here]. }
    rewrite (Hk k1 H1). by rewrite (Hk k2 H2).
  - apply (update_other_cards _ _ Hx) in H1, H2. by apply (Hone x).
Qed.

(** With [Easy], and with [Hard] or [Wrong] outside bucket 0, the caller's
    set for the bucket of the card has lost the card after the call. *)
Lemma update_takes_card_from_callers_set :
  new_bucket d b ≠ b → c ∈ members h s ∧ c ∉ members h' s.
Proof.
  intros Hnb. split; [apply card_here|]. unfold h'.
  rewrite (update_source_set h m c d b s found current ok Hnb).
  rewrite elem_of_Set_delete. by intros [_ ?].
Qed.

End update_moves.

(** The maps of the examples are well formed. *)
Lemma example_well_formed : well_formed example_store example_map.
Proof.
  assert (∀ k s, Map_get example_map k = Some s →
            (k = 0 ∧ s = 0) ∨ (k = 2 ∧ s = 1)) as Hget.
  { intros k s. unfold example_map. simpl. repeat case_decide; naive_solver. }
  split.
  - unfold example_map. simpl. apply NoDup_cons. split; [|apply NoDup_singleton].
    rewrite list_elem_of_singleton. lia.
  - intros k s Hk. apply elem_of_dom.
    destruct (Hget k s Hk) as [[-> ->]|[-> ->]]; by eexists.
  - intros k s Hk. destruct (Hget k s Hk) as [[-> ->]|[-> ->]]; by vm_compute.
  - intros c k1 k2 (s1 & H1 & Hc1) (s2 & H2 & Hc2).
    destruct (Hget k1 s1 H1) as [[-> ->]|[-> ->]];
      destruct (Hget k2 s2 H2) as [[-> ->]|[-> ->]]; try done;
      vm_compute in Hc1, Hc2; set_solver.
Qed.

Lemma single_store_ok : store_ok single_store single_map.
Proof.
  assert (∀ k s, Map_get single_map k = Some s → k = 3 ∧ s = 0) as Hget.
  { intros k s. unfold single_map. simpl. case_decide; naive_solver. }
  split.
  - apply NoDup_singleton.
  - intros k s Hk. apply elem_of_dom. destruct (Hget k s Hk) as [-> ->]. by eexists.
  - intros k1 k2 s H1 H2. destruct (Hget _ _ H1), (Hget _ _ H2). congruence.
Qed.

(** Up to 2^53 the bucket that a card moves to is computed exactly. *)
Lemma new_bucket_Easy b :
  (Z.of_nat b < 2 ^ 53)%Z → new_bucket Easy b = b + 1.
Proof.
  intros Hb. unfold new_bucket. rewrite Number_add_exact by lia. lia.
Qed.

Lemma new_bucket_Hard b :
  (Z.of_nat b ≤ 2 ^ 53)%Z →
  Z.of_nat (new_bucket Hard b) = Z.max 0 (Z.of_nat b - 1).
Proof.
  intros Hb. unfold new_bucket. rewrite Number_sub_exact by lia. lia.
Qed.

(** A card that is in bucket [b] only is, after the call, in the bucket
    that the code computes from [b], and in no other. *)
Lemma update_card_bucket h (m : BucketMap) c d b :
  store_ok h m →
  in_bucket h m b c →
  (∀ k, in_bucket h m k c → k = b) →
  ∀ k, in_bucket (update m c d h).2 (update m c d h).1 k c ↔ k = new_bucket d b.
Proof.
  intros Hok Hb Honly k.
  pose proof (scan_finds h m c b (keys_once h m Hok) Hb Honly) as Hfound.
  destruct Hb as (s & Hs & Hc).
  rewrite (update_card_moved h m c d b s Hfound Hs Hok k).
  split; [|by left]. intros [?|[Hne Hk]]; [done|]. by destruct (Hne (Honly k Hk)).
Qed.

(** The map [{b: {X}}] is well formed, and [X] is in its bucket [b]
    only. *)
Lemma one_bucket_map_card (b k : nat) :
  in_bucket single_store [(b, 0)] k cardX ↔ k = b.
Proof.
  unfold in_bucket. cbn [Map_get]. split.
  - intros (s & Hs & _). by case_decide.
  - intros ->. exists 0. rewrite decide_True by done. split; [done|].
    unfold single_store, members. rewrite lookup_singleton_eq. apply list_elem_of_here.
Qed.

Lemma one_bucket_map_well_formed (b : nat) : well_formed single_store [(b, 0)].
Proof.
  assert (∀ k s, Map_get [(b, 0)] k = Some s → k = b ∧ s = 0) as Hget.
  { intros k s. cbn [Map_get]. case_decide; naive_solver. }
  assert (members single_store 0 = [cardX]) as Hmem.
  { unfold single_store, members. by rewrite lookup_singleton_eq. }
  split.
  - apply NoDup_singleton.
  - intros k s Hk. apply elem_of_dom. destruct (Hget k s Hk) as [-> ->].
    unfold single_store. rewrite lookup_singleton_eq. by eexists.
  - intros k s Hk. destruct (Hget k s Hk) as [-> ->]. by rewrite Hmem.
  - intros c k1 k2 (s1 & H1 & _) (s2 & H2 & _).
    destruct (Hget _ _ H1), (Hget _ _ H2). congruence.
Qed.

Lemma bucket_2_53_value : Z.of_nat bucket_2_53 = (2 ^ 53)%Z.
Proof. unfold bucket_2_53. rewrite Z2Nat.id; [done | lia]. Qed.

(** C3, as amended.  In a map of [Set] objects, a card that is in bucket
    [b] and in no other is, after [update], in one bucket only: [b + 1]
    with [Easy] when [b < 2^53], [max(0, b - 1)] with [Hard] when
    [b <= 2^53], and [0] with [Wrong]. *)
Theorem update_moves_card h (m : BucketMap) c b :
  store_ok h m →
  in_bucket h m b c →
  (∀ k, in_bucket h m k c → k = b) →
  ((Z.of_nat b < 2 ^ 53)%Z →
   ∀ k, in_bucket (update m c Easy h).2 (update m c Easy h).1 k c ↔ k = b + 1)
  ∧ ((Z.of_nat b ≤ 2 ^ 53)%Z →
     ∀ k, in_bucket (update m c Hard h).2 (update m c Hard h).1 k c ↔
          Z.of_nat k = Z.max 0 (Z.of_nat b - 1))
  ∧ (∀ k, in_bucket (update m c Wrong h).2 (update m c Wrong h).1 k c ↔ k = 0).
Proof.
  intros Hok Hb Honly.
  pose proof (λ d, update_card_bucket h m c d b Hok Hb Honly) as Hmove.
  split; [|split].
  - intros Hlt k. by rewrite Hmove, new_bucket_Easy.
  - intros Hle k. rewrite Hmove. pose proof (new_bucket_Hard b Hle). lia.
  - intros k. by rewrite Hmove.
Qed.

Lemma update_moves_card_witness :
  ((Z.of_nat 0 < 2 ^ 53)%Z →
   ∀ k, in_bucket (update example_map cardX Easy example_store).2
          (update example_map cardX Easy example_store).1 k cardX ↔ k = 0 + 1)
  ∧ ((Z.of_nat 0 ≤ 2 ^ 53)%Z →
     ∀ k, in_bucket (update example_map cardX Hard example_store).2
            (update example_map cardX Hard example_store).1 k cardX ↔
          Z.of_nat k = Z.max 0 (Z.of_nat 0 - 1))
  ∧ (∀ k, in_bucket (update example_map cardX Wrong example_store).2
            (update example_map cardX Wrong example_store).1 k cardX ↔ k = 0).
Proof.
  assert (in_bucket example_store example_map 0 cardX) as Hin.
  { exists 0. split; [reflexivity|]. vm_compute.
    apply list_elem_of_further, list_elem_of_here. }
  apply (update_moves_card example_store example_map cardX 0).
  - exact (well_formed_store_ok _ _ example_well_formed).
  - exact Hin.
  - intros k Hk. exact (wf_one_bucket _ _ example_well_formed cardX k 0 Hk Hin).
Defined.

(** C3, as stated, at the input [{2^53: {X}}], card [X], [Easy]: the map is
    well formed and has the card in bucket 2^53 only; the code's
    [currentBucket + 1] is 2^53 again, and after the call the card is in
    bucket 2^53, not in bucket [2^53 + 1]. *)
Lemma update_easy_from_2_53 :
  let h : store := single_store in
  let m : BucketMap := [(bucket_2_53, 0)] in
  well_formed h m
  ∧ (∀ k, in_bucket h m k cardX ↔ k = bucket_2_53)
  ∧ in_bucket (update m cardX Easy h).2 (update m cardX Easy h).1 bucket_2_53 cardX
  ∧ ¬ in_bucket (update m cardX Easy h).2 (update m cardX Easy h).1
        (bucket_2_53 + 1) cardX.
Proof.
  intros h m. subst h m.
  pose proof (one_bucket_map_well_formed bucket_2_53) as Hwf.
  assert (new_bucket Easy bucket_2_53 = bucket_2_53) as Hnew.
  { apply Nat2Z.inj. unfold new_bucket. rewrite bucket_2_53_value.
    assert (Number_add (2 ^ 53) 1 = (2 ^ 53)%Z) as -> by (by vm_compute).
    rewrite Z2Nat.id by lia. reflexivity. }
  pose proof (update_card_bucket single_store [(bucket_2_53, 0)] cardX Easy bucket_2_53
                (well_formed_store_ok _ _ Hwf)) as Hmove.
  rewrite Hnew in Hmove.
  specialize (Hmove (proj2 (one_bucket_map_card bucket_2_53 bucket_2_53) eq_refl)).
  specialize (Hmove (λ k, proj1 (one_bucket_map_card bucket_2_53 k))).
  split; [exact Hwf|]. split; [apply one_bucket_map_card|]. split.
  - apply Hmove. reflexivity.
  - intros Hk. apply Hmove in Hk. lia.
Qed.

(** With [Hard], the first bucket number from which the card does not move
    to [b - 1] is [2^53 + 2]: the code's [currentBucket - 1] is 2^53. *)
Example new_bucket_Hard_rounds :
  Z.of_nat (new_bucket Hard (Z.to_nat (2 ^ 53 + 2))) = (2 ^ 53)%Z.
Proof.
  unfold new_bucket. rewrite (Z2Nat.id (2 ^ 53 + 2)) by lia.
  assert (Number_sub (2 ^ 53 + 2) 1 = (2 ^ 53)%Z) as -> by (by vm_compute). lia.
Qed.

(** C10. On a map of [Set] objects in which no card is in two buckets,
    [update] keeps the cards: a card is in some bucket of the result exactly
    when it is in some bucket of the input, every card other than the
    updated one is in the bucket it was in, and no card of the result is in
    two buckets. *)
Theorem update_keeps_cards h (m : BucketMap) c d :
  store_ok h m →
  one_bucket_per_card h m →
  let m' := (update m c d h).1 in
  let h' := (update m c d h).2 in
  (∀ x, (∃ k, in_bucket h' m' k x) ↔ (∃ k, in_bucket h m k x))
  ∧ (∀ x k, x ≠ c → in_bucket h' m' k x ↔ in_bucket h m k x)
  ∧ one_bucket_per_card h' m'.
Proof.
  intros Hok Hone m' h'. subst m' h'.
  destruct (find_bucket m c h).1 as [b|] eqn:Hfound.
  - destruct (scan_result h m c b (keys_once h m Hok) Hfound) as (s & Hs & Hc).
    pose proof (update_card_moved h m c d b s Hfound Hs Hok) as Hmove.
    pose proof (update_other_cards h m c d b s Hfound Hs Hok) as Hother.
    assert (in_bucket h m b c) as Hb by (by exists s).
    split; [|split].
    + intros x. destruct (decide (x = c)) as [->|Hx].
      * split; [by exists b|]. intros _. exists (new_bucket d b).
        apply Hmove. by left.
      * split; intros [k Hk]; exists k; by apply (Hother k x Hx).
    + intros x k Hx. by apply Hother.
    + by apply (update_one_bucket h m c d b s Hfound Hs Hok).
  - rewrite (update_not_found h m c d Hfound). cbn [fst snd]. done.
Qed.

Lemma update_keeps_cards_witness :
  let m' := (update example_map cardX Easy example_store).1 in
  let h' := (update example_map cardX Easy example_store).2 in
  (∀ x, (∃ k, in_bucket h' m' k x) ↔ (∃ k, in_bucket example_store example_map k x))
  ∧ (∀ x k, x ≠ cardX →
       in_bucket h' m' k x ↔ in_bucket example_store example_map k x)
  ∧ one_bucket_per_card h' m'.
Proof.
  apply (update_keeps_cards example_store example_map cardX Easy).
  - exact (well_formed_store_ok _ _ example_well_formed).
  - exact (wf_one_bucket _ _ example_well_formed).
Defined.

(** [update] keeps a well-formed map well formed. *)
Lemma update_keeps_well_formed h (m : BucketMap) c d :
  well_formed h m → well_formed (update m c d h).2 (update m c d h).1.
Proof.
  intros Hwf. destruct (find_bucket m c h).1 as [b|] eqn:Hfound.
  - destruct (scan_result h m c b (wf_keys_once h m Hwf) Hfound) as (s & Hs & Hc).
    pose proof (well_formed_store_ok h m Hwf) as Hok. split.
    + by apply (update_keys_once h m c d b s).
    + by apply (update_allocated h m c d b s).
    + apply (update_buckets_not_empty h m c d b s); [done..|].
      apply (wf_no_empty h m Hwf).
    + apply (update_one_bucket h m c d b s); [done..|].
      apply (wf_one_bucket h m Hwf).
  - by rewrite (update_not_found h m c d Hfound).
Qed.

(** C6, as amended.  When every key of the map holds a set of its own and
    none of these sets is empty, no set of the map that [update] returns is
    empty.  When the card is the last card of its source bucket [b], the
    bucket that [update] takes it from, the result has no key [b], unless
    [b] is also the bucket that the card moves to. *)
Theorem update_no_empty_buckets h (m : BucketMap) c d :
  store_ok h m →
  no_empty_buckets h m →
  let m' := (update m c d h).1 in
  let h' := (update m c d h).2 in
  no_empty_buckets h' m'
  ∧ (∀ b s, source_bucket h m c b → Map_get m b = Some s →
       SetValue.delete (members h s) c = [] →
       new_bucket d b ≠ b →
       Map_get m' b = None).
Proof.
  intros Hok Hne m' h'. subst m' h'. split.
  - destruct (find_bucket m c h).1 as [b|] eqn:Hfound.
    + destruct (scan_result h m c b (keys_once h m Hok) Hfound) as (s & Hs & Hc).
      by apply (update_buckets_not_empty h m c d b s).
    + by rewrite (update_not_found h m c d Hfound).
  - intros b s Hsrc Hs Hlast Hnb.
    apply (update_deletes_empty_bucket h m c d b s); try done.
    by apply find_bucket_source.
Qed.

Lemma update_no_empty_buckets_witness :
  let m' := (update single_map cardX Hard single_store).1 in
  let h' := (update single_map cardX Hard single_store).2 in
  no_empty_buckets h' m'
  ∧ (∀ b s, source_bucket single_store single_map cardX b →
       Map_get single_map b = Some s →
       SetValue.delete (members single_store s) cardX = [] →
       new_bucket Hard b ≠ b →
       Map_get m' b = None).
Proof.
  apply (update_no_empty_buckets single_store single_map cardX Hard).
  - exact single_store_ok.
  - intros k s Hk. unfold single_map in Hk. simpl in Hk.
    case_decide; [|done]. injection Hk as <-. by vm_compute.
Defined.

(** A card in two buckets, [{1: {X}, 5: {X}}] with [Easy]: its source
    bucket is 1, the first of the map; the result has no key 1, and the card
    is in the buckets 5 and 2. *)
Example update_card_in_two_buckets :
  let h : store := {[0 := [cardX]; 1 := [cardX]]} in
  let m : BucketMap := [(1, 0); (5, 1)] in
  let m' := (update m cardX Easy h).1 in
  let h' := (update m cardX Easy h).2 in
  source_bucket h m cardX 1
  ∧ Map_get m' 1 = None
  ∧ Map_keys m' = [5; 2]
  ∧ bucket h' m' 5 = Some [cardX] ∧ bucket h' m' 2 = Some [cardX].
Proof.
  split; [|by vm_compute].
  exists [], 0, [(5, 1)]. split; [done|]. split.
  - vm_compute. apply list_elem_of_here.
  - intros e He. by apply not_elem_of_nil in He.
Qed.

(** The scenario of the specification: [update({3: {X}}, X, Hard)] returns
    [{2: {X}}], which has no key 3. *)
Example update_hard_from_3 :
  let m' := (update single_map cardX Hard single_store).1 in
  let h' := (update single_map cardX Hard single_store).2 in
  bucket h' m' 2 = Some [cardX] ∧ Map_get m' 3 = None ∧ Map_keys m' = [2].
Proof. by vm_compute. Qed.

(** Two keys that hold one [Set] object: with [s = {X}] under the keys 1 and
    5, [update] with [Easy] deletes [X] from [s], and the map returned holds
    the emptied [s] under key 5. *)
Example update_shared_set :
  let h : store := {[0 := [cardX]]} in
  let m : BucketMap := [(1, 0); (5, 0)] in
  let m' := (update m cardX Easy h).1 in
  let h' := (update m cardX Easy h).2 in
  bucket h m 1 = Some [cardX] ∧ bucket h m 5 = Some [cardX]
  ∧ Map_keys m' = [5; 2]
  ∧ bucket h' m' 5 = Some [] ∧ bucket h' m' 2 = Some [cardX].
Proof. by vm_compute. Qed.

(** C6, as stated, at the input [{0: {X}}], card [X], [Hard]: removing the
    card leaves bucket 0 empty, and the map returned has the key 0, holding
    the card. *)
Lemma update_hard_from_0_keeps_key :
  let h : store := {[0 := [cardX]]} in
  let m : BucketMap := [(0, 0)] in
  let m' := (update m cardX Hard h).1 in
  let h' := (update m cardX Hard h).2 in
  no_empty_buckets h m
  ∧ in_bucket h m 0 cardX
  ∧ SetValue.delete (members h 0) cardX = []
  ∧ Map_get m' 0 ≠ None
  ∧ bucket h' m' 0 = Some [cardX].
Proof.
  split; [|split; [|by vm_compute]].
  - intros k s Hk. simpl in Hk. case_decide; [|done]. injection Hk as <-.
    by vm_compute.
  - exists 0. split; [done|]. vm_compute. apply list_elem_of_here.
Qed.

(** ** [getHint] *)

Section getHint_facts.
Lemma length_append s1 s2 :
  String.length (s1 ++ s2)%string = String.length s1 + String.length s2.
Proof. induction s1 as [|a s1 IH]; simpl; [done | by rewrite IH]. Qed.

Lemma length_substring_0 s : ∀ k,
  k ≤ String.length s → String.length (substring 0 k s) = k.
Proof.
  induction s as [|a s IH]; intros [|k] Hk; simpl in *; try done; [lia|].
  rewrite IH; [done | lia].
Qed.

Lemma get_append_l s1 s2 : ∀ i,
  i < String.length s1 → get i (s1 ++ s2)%string = get i s1.
Proof.
  induction s1 as [|a s1 IH]; intros i Hi; simpl in *; [lia|].
  destruct i as [|i]; [done|]. apply IH. lia.
Qed.

Lemma get_append_r s1 s2 : ∀ i,
  String.length s1 ≤ i → get i (s1 ++ s2)%string = get (i - String.length s1) s2.
Proof.
  induction s1 as [|a s1 IH]; intros i Hi; simpl in *.
  - by rewrite Nat.sub_0_r.
  - destruct i as [|i]; [lia|]. apply IH. lia.
Qed.

Lemma get_substring_0 s : ∀ k i, i < k → get i (substring 0 k s) = get i s.
Proof.
  induction s as [|a s IH]; intros [|k] i Hi; simpl; try done; [lia|].
  destruct i as [|i]; [done|]. apply IH. lia.
Qed.

Lemma length_repeat_string n : String.length (repeat_string "_" n) = n.
Proof.
  induction n as [|n IH]; [done|].
  change (S (String.length (repeat_string "_" n)) = S n). by rewrite IH.
Qed.

Lemma get_repeat_string n : ∀ i,
  i < n → get i (repeat_string "_" n) = Some "_"%char.
Proof.
  induction n as [|n IH]; intros i Hi; [lia|].
  destruct i as [|i]; [done|].
  change (get i (repeat_string "_" n) = Some "_"%char). apply IH. lia.
Qed.

(** [Math.ceil(n / 2)] is the integer [k] with [n <= 2k < n + 2]. *)
Lemma ceil_half (n k : nat) :
  n ≤ 2 * k < n + 2 → Z.to_nat (Qceiling (Z.of_nat n # 2)) = k.
Proof.
  intros Hk. unfold Qceiling, Qfloor. simpl.
  assert ((- (- Z.of_nat n / 2))%Z = Z.of_nat k) as ->; [|lia].
  pose proof (Z.div_mod (- Z.of_nat n) 2) as Hdiv.
  pose proof (Z.mod_pos_bound (- Z.of_nat n) 2) as Hmod. lia.
Qed.

(** C8. The hint has the length of the front text.  With [k] the ceiling
    of half that length, its first [k] characters are those of the front
    text and each of the others is an underscore.  An empty front gives
    the empty hint, and a front of one character is its own hint. *)
Theorem getHint_reveals_first_half (card : Flashcard) (k : nat) :
  String.length (front card) ≤ 2 * k < String.length (front card) + 2 →
  String.length (getHint card) = String.length (front card)
  ∧ (∀ i, i < k → get i (getHint card) = get i (front card))
  ∧ (∀ i, k ≤ i < String.length (front card) →
       get i (getHint card) = Some "_"%char)
  ∧ (String.length (front card) = 0 → getHint card = ""%string)
  ∧ (String.length (front card) = 1 → getHint card = front card).
Proof.
  intros Hk. unfold getHint. rewrite (ceil_half _ k Hk).
  destruct (decide (String.length (front card) = 0)) as [Hz|Hz].
  - split; [done|]. split; [intros i Hi; lia|]. split; [intros i Hi; lia|].
    split; [done|]. intros H1. lia.
  - set (n := String.length (front card)) in *.
    assert (String.length (substring 0 k (front card)) = k) as Hshown.
    { apply length_substring_0. fold n. lia. }
    split; [|split; [|split; [|split]]].
    + rewrite length_append, Hshown, length_repeat_string. lia.
    + intros i Hi. rewrite get_append_l by lia. by apply get_substring_0.
    + intros i Hi. rewrite get_append_r by lia. rewrite Hshown.
      apply get_repeat_string. lia.
    + intros Hn. lia.
    + intros Hn. assert (k = 1) as -> by lia. subst n.
      destruct (front card) as [|a [|a' t]]; simpl in Hn; try done.
Qed.

End getHint_facts.

Lemma getHint_reveals_first_half_witness :
  let card := mkFlashcard 7 "ABC" "DEF" "" [] in
  String.length (getHint card) = String.length (front card)
  ∧ (∀ i, i < 2 → get i (getHint card) = get i (front card))
  ∧ (∀ i, 2 ≤ i < String.length (front card) →
       get i (getHint card) = Some "_"%char)
  ∧ (String.length (front card) = 0 → getHint card = ""%string)
  ∧ (String.length (front card) = 1 → getHint card = front card).
Proof.
  apply (getHint_reveals_first_half (mkFlashcard 7 "ABC" "DEF" "" []) 2).
  simpl. lia.
Defined.

(** The hints that the tests expect. *)
Example getHint_tests :
  getHint (mkFlashcard 0 "" "A" "" []) = ""%string
  ∧ getHint (mkFlashcard 0 "A" "B" "" []) = "A"%string
  ∧ getHint (mkFlashcard 0 "ABCD" "EFGH" "" []) = "AB__"%string
  ∧ getHint (mkFlashcard 0 "ABC" "DEF" "" []) = "AB_"%string.
Proof. by vm_compute. Qed.

(** ** [computeProgress] *)

(** *** The first element that satisfies a predicate *)

Section first_index_facts.
Context {A : Type} (P : A → Prop) `{∀ x, Decision (P x)}.

Lemma first_index_found l :
  first_index P l < length l ↔ 0 < length (filter P l).
Proof.
  induction l as [|x l IH]; simpl; [done|].
  rewrite filter_cons. case_decide; simpl; lia.
Qed.

Lemma first_index_app_l l l' :
  first_index P l < length l → first_index P (l ++ l') = first_index P l.
Proof.
  induction l as [|x l IH]; simpl; [lia|].
  case_decide; [done|]. intros Hlt. rewrite IH; [done | lia].
Qed.

Lemma first_index_app_r l l' :
  length (filter P l) = 0 →
  first_index P (l ++ l') = length l + first_index P l'.
Proof.
  induction l as [|x l IH]; simpl; [done|].
  rewrite filter_cons. case_decide; simpl; [done|].
  intros Hz. by rewrite IH.
Qed.

End first_index_facts.

(** *** The stable sort *)

Lemma StronglySorted_lookup {A : Type} (R : relation A) (l : list A) i j x y :
  StronglySorted R l → i < j → l !! i = Some x → l !! j = Some y → R x y.
Proof.
  intros Hl. revert i j. induction Hl as [|a l Hl IH Hall]; intros i j Hij Hi Hj.
  - done.
  - destruct j as [|j]; [lia|]. simpl in Hj. destruct i as [|i].
    + simpl in Hi. injection Hi as <-.
      rewrite Forall_forall in Hall. apply Hall. by apply list_elem_of_lookup_2 in Hj.
    + simpl in Hi. apply (IH i j); [lia | done | done].
Qed.

Lemma StronglySorted_on_elements {A : Type} (R R' : relation A) (l : list A) :
  (∀ x y, x ∈ l → y ∈ l → R x y → R' x y) →
  StronglySorted R l → StronglySorted R' l.
Proof.
  intros HR Hl. induction Hl as [|a l Hl IH Ha]; constructor.
  - apply IH. intros x y Hx Hy. apply HR; by right.
  - rewrite Forall_forall in Ha |- *. intros x Hx.
    apply HR; [by left | by right | by apply Ha].
Qed.

Section JsSort_facts.
Context {A : Type} (cmp : A → A → Z).

Lemma sort_insert_perm x l : sort_insert cmp x l ≡ₚ x :: l.
Proof.
  induction l as [|y l IH]; simpl; [done|].
  case_decide; [|done]. rewrite IH. apply Permutation_swap.
Qed.

Lemma Array_sort_perm l : Array_sort cmp l ≡ₚ l.
Proof.
  induction l as [|x l IH]; simpl; [done|].
  by rewrite sort_insert_perm, IH.
Qed.

(** [earlier] is the order of the elements in the array that is sorted;
    [sorted] puts first what the comparison puts first and, where it does
    not decide, what came earlier. *)
Context (earlier sorted : relation A).
Hypothesis sorted_trans : Transitive sorted.
Hypothesis cmp_first : ∀ x y, (0 < cmp x y)%Z → sorted y x.
Hypothesis cmp_stable : ∀ x y, ¬ (0 < cmp x y)%Z → earlier x y → sorted x y.

Lemma sort_insert_sorted x l :
  Forall (earlier x) l → StronglySorted sorted l →
  StronglySorted sorted (sort_insert cmp x l).
Proof.
  intros Hx Hl. induction Hl as [|y l Hl IH Hy]; simpl.
  - by repeat constructor.
  - apply Forall_cons in Hx as [Hxy Hx]. case_decide as Hcmp.
    + constructor; [by apply IH|].
      rewrite sort_insert_perm. constructor; [by apply cmp_first | done].
    + assert (sorted x y) as Hsxy by (by apply cmp_stable).
      constructor; [by constructor|].
      constructor; [done|].
      eapply Forall_impl; [exact Hy|]. intros z Hyz. by transitivity y.
Qed.

Lemma Array_sort_sorted l :
  StronglySorted earlier l → StronglySorted sorted (Array_sort cmp l).
Proof.
  induction 1 as [|x l Hl IH Hx]; simpl; [constructor|].
  apply sort_insert_sorted; [|done]. by rewrite Array_sort_perm.
Qed.

End JsSort_facts.

(** *** The three loops *)

Section count_cards_facts.
Context (h : store).

Let size_of (e : nat * loc) : nat := length (members h e.2).

Lemma count_cards_run (buckets : BucketMap) : ∀ totalCards cardsByBucket,
  for_of buckets (totalCards, cardsByBucket)
    (λ '(totalCards, cardsByBucket) '(bucket, cards),
       count ← Set_size cards;
       mret (totalCards + count, Map_set cardsByBucket bucket count)) h
  = ((totalCards + sum_list_with size_of buckets,
      foldl (λ acc e, Map_set acc e.1 (size_of e)) cardsByBucket buckets), h).
Proof.
  induction buckets as [|[k s] buckets IH]; intros totalCards cardsByBucket.
  - simpl. by rewrite Nat.add_0_r.
  - rewrite for_of_cons. run. cbn [fst snd]. rewrite IH. simpl.
    unfold size_of at 2 4. simpl. by rewrite Nat.add_assoc.
Qed.

Lemma sizes_in_order (buckets : BucketMap) : ∀ acc : list (nat * nat),
  NoDup (Map_keys acc ++ Map_keys buckets) →
  foldl (λ acc e, Map_set acc e.1 (size_of e)) acc buckets
  = acc ++ ((λ e, (e.1, size_of e)) <$> buckets).
Proof.
  unfold Map_keys.
  induction buckets as [|[k s] buckets IH]; intros acc Hnd; simpl.
  - by rewrite app_nil_r.
  - simpl in Hnd. rewrite Map_set_new.
    + rewrite IH.
      * by rewrite <- app_assoc.
      * rewrite fmap_app. simpl. by rewrite <- app_assoc.
    + apply NoDup_app in Hnd as (_ & Hnd & _). intros Hin.
      apply (Hnd k Hin). by left.
Qed.

End count_cards_facts.

Lemma count_successes_filter (history : list HistoryEntry) :
  count_successes history =
    length (filter (λ e, difficulty e = Easy ∨ difficulty e = Hard) history).
Proof.
  unfold count_successes.
  assert (∀ n,
            foldl (λ successCount entry,
                     if decide (difficulty entry = Easy ∨ difficulty entry = Hard)
                     then S successCount else successCount) n history
            = n + length (filter (λ e, difficulty e = Easy ∨ difficulty e = Hard)
                            history)) as Hgen.
  { induction history as [|e history IH]; intros n; simpl; [lia|].
    rewrite IH, filter_cons. case_decide; simpl; lia. }
  apply (Hgen 0).
Qed.

Section count_wrong_facts.

Lemma wrong_count_snoc history e c :
  wrong_count (history ++ [e]) c =
    wrong_count history c + (if decide (judged_wrong c e) then 1 else 0).
Proof.
  unfold wrong_count. rewrite filter_app, length_app. f_equal.
  rewrite filter_cons, filter_nil. by case_decide.
Qed.

Lemma first_wrong_old history e c :
  0 < wrong_count history c →
  first_wrong (history ++ [e]) c = first_wrong history c
  ∧ first_wrong history c < length history.
Proof.
  intros Hc. apply (first_index_found (judged_wrong c)) in Hc.
  split; [by apply first_index_app_l | done].
Qed.

Lemma first_wrong_new history e c :
  wrong_count history c = 0 → judged_wrong c e →
  first_wrong (history ++ [e]) c = length history.
Proof.
  intros Hc He. unfold first_wrong. rewrite first_index_app_r by done.
  simpl. rewrite decide_True by done. lia.
Qed.

Lemma count_wrong_snoc history e :
  count_wrong (history ++ [e]) =
    if decide (difficulty e = Wrong) then
      Map_set (count_wrong history) (card e)
        (default 0 (Map_get (count_wrong history) (card e)) + 1)
    else count_wrong history.
Proof. unfold count_wrong. by rewrite foldl_snoc. Qed.

(** [wrongCounts] after the loop: a card is a key when it was judged
    [Wrong], its value is the number of these judgments, and the keys are
    in the order of their first [Wrong] judgment. *)
Lemma count_wrong_spec history :
  NoDup (Map_keys (count_wrong history))
  ∧ (∀ c, Map_get (count_wrong history) c =
          if decide (wrong_count history c = 0) then None
          else Some (wrong_count history c))
  ∧ StronglySorted (λ a b, first_wrong history a < first_wrong history b)
      (Map_keys (count_wrong history)).
Proof.
  induction history as [|e history IH] using rev_ind.
  - split; [constructor|]. split; [done|constructor].
  - destruct IH as (Hnd & Hget & Hsorted). rewrite count_wrong_snoc.
    assert (∀ c, c ∈ Map_keys (count_wrong history) ↔ 0 < wrong_count history c)
      as Hkeys.
    { intros c. pose proof (Map_get_None (count_wrong history) c) as Hn.
      rewrite Hget in Hn. case_decide; [|split; [lia|]].
      - split; [|lia]. intros Hin. by apply Hn in Hin.
      - intros _. destruct (decide (c ∈ Map_keys (count_wrong history)));
          [done|]. by apply Hn in n. }
    assert (StronglySorted
              (λ a b, first_wrong (history ++ [e]) a < first_wrong (history ++ [e]) b)
              (Map_keys (count_wrong history))) as Hsorted'.
    { eapply StronglySorted_on_elements; [|exact Hsorted].
      intros x y Hx Hy Hxy. apply Hkeys in Hx, Hy.
      destruct (first_wrong_old history e x Hx) as [-> _].
      by destruct (first_wrong_old history e y Hy) as [-> _]. }
    destruct (decide (difficulty e = Wrong)) as [Hw|Hw].
    + set (c0 := card e). fold c0.
      assert (judged_wrong c0 e) as Hj by done.
      assert (default 0 (Map_get (count_wrong history) c0) = wrong_count history c0)
        as ->.
      { rewrite Hget. by case_decide. }
      split; [|split].
      * destruct (decide (c0 ∈ Map_keys (count_wrong history))) as [Hin|Hin].
        -- by rewrite Map_set_keys_old.
        -- rewrite Map_set_new by done. unfold Map_keys. rewrite fmap_app.
           apply NoDup_app. split; [done|]. split; [|apply NoDup_singleton].
           intros x Hx Hx'. apply list_elem_of_singleton in Hx'. by subst x.
      * intros c. rewrite Map_get_set, wrong_count_snoc.
        destruct (decide (c = c0)) as [->|Hc].
        -- rewrite (decide_True (P := judged_wrong c0 e)) by done.
           by rewrite decide_False by lia.
        -- rewrite (decide_False (P := judged_wrong c e)); [|by intros [? _]].
           rewrite Nat.add_0_r. apply Hget.
      * destruct (decide (c0 ∈ Map_keys (count_wrong history))) as [Hin|Hin].
        -- by rewrite Map_set_keys_old.
        -- rewrite Map_set_new by done. unfold Map_keys. rewrite fmap_app.
           apply StronglySorted_app_2; [|done|by repeat constructor].
           intros a x Ha Hx. apply list_elem_of_singleton in Hx. subst x.
           simpl. apply Hkeys in Ha.
           destruct (first_wrong_old history e a Ha) as [-> Hlt].
           rewrite first_wrong_new; [done| |done].
           destruct (decide (wrong_count history c0 = 0)); [done|].
           destruct Hin. apply Hkeys. lia.
    + split; [done|]. split; [|done].
      intros c. rewrite wrong_count_snoc.
      rewrite (decide_False (P := judged_wrong c e)); [|by intros [_ ?]].
      rewrite Nat.add_0_r. apply Hget.
Qed.

End count_wrong_facts.

(** *** The report *)

Lemma StronglySorted_fmap_inv {A B : Type} (f : A → B) (R : relation B) (l : list A) :
  StronglySorted R (f <$> l) → StronglySorted (λ x y, R (f x) (f y)) l.
Proof.
  induction l as [|x l IH]; simpl; [constructor|].
  rewrite !StronglySorted_cons, Forall_fmap. intros [Hx Hl]. split; [done | by apply IH].
Qed.

Lemma computeProgress_run h (buckets : BucketMap) (history : list HistoryEntry) :
  computeProgress buckets history h =
    (mkProgress
       (sum_list_with (λ e, length (members h e.2)) buckets)
       (foldl (λ acc e, Map_set acc e.1 (length (members h e.2))) [] buckets)
       (if decide (0 < length history)
        then Number_div (Z.of_nat (count_successes history))
                        (Z.of_nat (length history))
        else 0%Q)
       (take 3 (Array_sort (λ a b, Z.of_nat b.2 - Z.of_nat a.2)%Z
                  (count_wrong history))).*1,
     h).
Proof.
  unfold computeProgress, count_cards.
  unfold mbind at 1. unfold M_bind. by rewrite count_cards_run.
Qed.

(** The order in which the cards judged [Wrong] are listed. *)
Lemma hardest_ranking (history : list HistoryEntry) :
  let ranking :=
    (Array_sort (λ a b, Z.of_nat b.2 - Z.of_nat a.2)%Z (count_wrong history)).*1 in
  NoDup ranking
  ∧ (∀ c, c ∈ ranking ↔ 0 < wrong_count history c)
  ∧ (∀ i j a b, i < j → ranking !! i = Some a → ranking !! j = Some b →
       harder history a b).
Proof.
  intros ranking. subst ranking.
  set (cmp := λ a b : Flashcard * nat, (Z.of_nat b.2 - Z.of_nat a.2)%Z).
  destruct (count_wrong_spec history) as (Hnd & Hget & Hsorted).
  set (W := count_wrong history) in *.
  pose proof (Array_sort_perm cmp W) as Hperm.
  assert (∀ x, x ∈ W → x.2 = wrong_count history x.1 ∧ 0 < x.2) as Hcount.
  { intros [c n] Hin. apply (Map_get_elem _ _ _ Hnd) in Hin.
    rewrite Hget in Hin. case_decide; [done|]. injection Hin as <-. simpl. lia. }
  split; [|split].
  - unfold Map_keys in Hnd. by rewrite Hperm.
  - intros c. rewrite Hperm.
    pose proof (Map_get_None W c) as Hn. rewrite Hget in Hn. unfold Map_keys in Hn.
    case_decide as Hz.
    + split; [|lia]. intros Hin. by apply Hn in Hin.
    + split; [lia|]. intros _. destruct (decide (c ∈ W.*1)) as [|Hc]; [done|].
      by apply Hn in Hc.
  - intros i j a b Hij Hi Hj.
    apply list_lookup_fmap_Some in Hi as (x & -> & Hi).
    apply list_lookup_fmap_Some in Hj as (y & -> & Hj).
    set (sorted := λ x y : Flashcard * nat,
           y.2 < x.2
           ∨ (x.2 = y.2 ∧ first_wrong history x.1 < first_wrong history y.1)).
    assert (StronglySorted sorted (Array_sort cmp W)) as Hs.
    { apply (Array_sort_sorted cmp
               (λ x y, first_wrong history x.1 < first_wrong history y.1)).
      - intros u v w. unfold sorted. lia.
      - intros u v. unfold cmp, sorted. lia.
      - intros u v. unfold cmp, sorted. lia.
      - by apply (StronglySorted_fmap_inv fst
                    (λ a b, first_wrong history a < first_wrong history b)). }
    pose proof (StronglySorted_lookup sorted _ i j x y Hs Hij Hi Hj) as Hxy.
    assert (x ∈ W) as Hx by (rewrite <- Hperm; by apply list_elem_of_lookup_2 in Hi).
    assert (y ∈ W) as Hy by (rewrite <- Hperm; by apply list_elem_of_lookup_2 in Hj).
    destruct (Hcount x Hx) as [Ex _]. destruct (Hcount y Hy) as [Ey _].
    unfold harder. unfold sorted in Hxy. by rewrite <- Ex, <- Ey.
Qed.

(** C9, as amended.  [computeProgress] leaves the store as it is and
    reports: the sum of the sizes of the sets of the map; for each bucket
    number of the map, in the map's order, the size of its set; the number
    of entries judged [Easy] or [Hard] divided by the number of entries as
    numbers divide, which is a double nearest to the quotient, and 0 for an
    empty history; and the first three of the cards with a [Wrong] judgment, each listed once,
    those judged [Wrong] more often first and, among cards judged [Wrong]
    equally often, the one whose first [Wrong] judgment is earlier in the
    history first. *)
Theorem computeProgress_report h (buckets : BucketMap)
    (history : list HistoryEntry) :
  NoDup (Map_keys buckets) →
  let report := (computeProgress buckets history h).1 in
  (computeProgress buckets history h).2 = h
  ∧ totalCards report = sum_list_with (λ e, length (members h e.2)) buckets
  ∧ cardsByBucket report = (λ e, (e.1, length (members h e.2))) <$> buckets
  ∧ (history = [] → successRate report = 0%Q)
  ∧ (history ≠ [] →
     let successes :=
       Z.of_nat (length
         (filter (λ e, difficulty e = Easy ∨ difficulty e = Hard) history)) in
     let entries := Z.of_nat (length history) in
     successRate report = Number_div successes entries
     ∧ nearest_double (Qdiv (inject_Z successes) (inject_Z entries))
         (successRate report))
  ∧ (∃ ranking,
       hardestCards report = take 3 ranking
       ∧ NoDup ranking
       ∧ (∀ c, c ∈ ranking ↔ 0 < wrong_count history c)
       ∧ (∀ i j a b, i < j → ranking !! i = Some a → ranking !! j = Some b →
            harder history a b)).
Proof.
  intros Hnd report. subst report. rewrite computeProgress_run. cbn [fst snd].
  split; [done|]. split; [done|]. split; [|split; [|split]].
  - simpl. by rewrite (sizes_in_order h buckets []).
  - intros ->. done.
  - intros Hne. cbn [successRate].
    assert (0 < length history) as Hlen by (destruct history; [done | simpl; lia]).
    rewrite decide_True by done. rewrite count_successes_filter.
    split; [done|]. apply Number_div_nearest; lia.
  - eexists. split; [apply fmap_take|]. apply hardest_ranking.
Qed.

Lemma computeProgress_report_witness :
  let history :=
    [mkEntry cardA Easy; mkEntry cardA Wrong; mkEntry cardB Hard; mkEntry cardB Wrong] in
  let report := (computeProgress example_map history example_store).1 in
  (computeProgress example_map history example_store).2 = example_store
  ∧ totalCards report
    = sum_list_with (λ e, length (members example_store e.2)) example_map
  ∧ cardsByBucket report
    = (λ e, (e.1, length (members example_store e.2))) <$> example_map
  ∧ (history = [] → successRate report = 0%Q)
  ∧ (history ≠ [] →
     let successes :=
       Z.of_nat (length
         (filter (λ e, difficulty e = Easy ∨ difficulty e = Hard) history)) in
     let entries := Z.of_nat (length history) in
     successRate report = Number_div successes entries
     ∧ nearest_double (Qdiv (inject_Z successes) (inject_Z entries))
         (successRate report))
  ∧ (∃ ranking,
       hardestCards report = take 3 ranking
       ∧ NoDup ranking
       ∧ (∀ c, c ∈ ranking ↔ 0 < wrong_count history c)
       ∧ (∀ i j a b, i < j → ranking !! i = Some a → ranking !! j = Some b →
            harder history a b)).
Proof.
  apply (computeProgress_report example_store example_map).
  exact (wf_keys_once _ _ example_well_formed).
Defined.

(** The scenario of the specification and of the tests. *)
Example computeProgress_scenario :
  let history :=
    [mkEntry cardA Easy; mkEntry cardA Wrong; mkEntry cardB Hard; mkEntry cardB Wrong] in
  let h : store := {[0 := [cardA]; 1 := [cardB]]} in
  let report := (computeProgress [(0, 0); (1, 1)] history h).1 in
  totalCards report = 2
  ∧ cardsByBucket report = [(0, 1); (1, 1)]
  ∧ Qeq (successRate report) (1 # 2)
  ∧ hardestCards report = [cardA; cardB].
Proof. by vm_compute. Qed.

(** C9, as stated, at the history [(A, Easy), (B, Wrong), (A, Wrong)]: both
    cards were judged [Wrong] once and [A] occurs first in the history, but
    [B] is listed first; and one entry of the three is judged [Easy] or
    [Hard], but the success rate is the double 0.3333333333333333, which is
    not a third. *)
Lemma hardestCards_tie_not_by_first_occurrence :
  let history :=
    [mkEntry cardA Easy; mkEntry cardB Wrong; mkEntry cardA Wrong] in
  let report := (computeProgress [] history ∅).1 in
  hardestCards report = [cardB; cardA]
  ∧ wrong_count history cardA = wrong_count history cardB
  ∧ first_occurrence history cardA < first_occurrence history cardB
  ∧ successRate report = Qmake 6004799503160661 (Z.to_pos (2 ^ 54))
  ∧ ¬ Qeq (successRate report) (Qdiv (inject_Z 1) (inject_Z 3)).
Proof.
  split; [by vm_compute|]. split; [by vm_compute|].
  split; [vm_compute; lia|]. split; by vm_compute.
Qed.

(** * Further properties *)

(** ** [getBucketRange] *)

Lemma for_of_snoc {A S : Type} (l : list A) (x : A) body : ∀ (s : S) h,
  for_of (l ++ [x]) s body h
  = body (for_of l s body h).1 x (for_of l s body h).2.
Proof.
  induction l as [|y l IH]; intros s h.
  - simpl. run. by destruct (body s x h).
  - rewrite <- app_comm_cons, !for_of_cons. apply IH.
Qed.

Lemma members_new_Set h s : members (<[fresh (dom h) := []]> h) s = members h s.
Proof.
  destruct (decide (fresh (dom h) = s)) as [<-|Hne].
  - rewrite members_insert_eq. unfold members.
    by rewrite (not_elem_of_dom_1 h _ (fresh_not_allocated h)).
  - by apply members_insert_ne.
Qed.

#[global] Instance occupied_dec h a i : Decision (occupied h a i).
Proof. unfold occupied. apply _. Defined.

Lemma occupied_slot h (a : BucketArray) i :
  occupied h a i ↔ ∃ s, a !! i = Some (Some s) ∧ members h s ≠ [].
Proof.
  unfold occupied, slot_size. destruct (Array_get a i) as [s|] eqn:E.
  - apply Array_get_Some in E. split.
    + intros Hlt. exists s. split; [done|]. intros E'. rewrite E' in Hlt. simpl in Hlt. lia.
    + intros (s' & Hs' & Hne). rewrite E in Hs'. injection Hs' as <-.
      destruct (members h s); [done | simpl; lia].
  - split; [lia|]. intros (s & Hs & _). apply Array_get_Some in Hs. congruence.
Qed.

Section getBucketRange_facts.
Context (buckets : BucketArray) (h0 : store).

Let look : option nat * option nat → nat → M (option nat * option nat) :=
  λ '(minBucket, maxBucket) i,
  bucket ← match Array_get buckets i with
           | Some bucket => mret bucket
           | None => new_Set
           end;
  size ← Set_size bucket;
  if decide (0 < size) then
    mret (match minBucket with
          | None => Some i
          | Some m => if decide (i < m) then Some i else Some m
          end,
          match maxBucket with
          | None => Some i
          | Some m => if decide (m < i) then Some i else Some m
          end)
  else mret (minBucket, maxBucket).

(** One turn of the loop: the sets keep their members, and the bounds move
    when slot [i] has a card. *)
Lemma look_run mn mx i h :
  (∀ s, members h s = members h0 s) →
  (∀ s, members (look (mn, mx) i h).2 s = members h0 s)
  ∧ (h ⊆ (look (mn, mx) i h).2)
  ∧ (look (mn, mx) i h).1 =
      if decide (occupied h0 buckets i) then
        (match mn with
         | None => Some i
         | Some m => if decide (i < m) then Some i else Some m
         end,
         match mx with
         | None => Some i
         | Some m => if decide (m < i) then Some i else Some m
         end)
      else (mn, mx).
Proof.
  intros Hsame. unfold look. run.
  destruct (Array_get buckets i) as [s|] eqn:E; cbv beta iota.
  - rewrite Hsame.
    assert (occupied h0 buckets i ↔ 0 < length (members h0 s)) as Hocc
      by (unfold occupied, slot_size; by rewrite E).
    destruct (decide (0 < length (members h0 s))) as [Hs|Hs];
      destruct (decide (occupied h0 buckets i)) as [Ho|Ho]; try done;
      exfalso; tauto.
  - rewrite members_insert_eq. simpl.
    assert (¬ occupied h0 buckets i) as Hocc
      by (unfold occupied, slot_size; rewrite E; lia).
    destruct (decide (occupied h0 buckets i)) as [Ho|Ho]; [done|].
    split; [|split; [|done]].
    + intros s. by rewrite members_new_Set.
    + apply insert_subseteq. apply not_elem_of_dom. apply fresh_not_allocated.
Qed.

(** The bounds after the first [n] slots. *)
Lemma range_loop n :
  (∀ s, members (for_of (seq 0 n) (None, None) look h0).2 s = members h0 s)
  ∧ (h0 ⊆ (for_of (seq 0 n) (None, None) look h0).2)
  ∧ bounds_of h0 buckets n (for_of (seq 0 n) (None, None) look h0).1.
Proof.
  induction n as [|n IH].
  - simpl. split; [done|]. split; [done|]. unfold bounds_of. simpl.
    split; [done|]. split; [done|]. split; [|done]. intros _ i Hi. lia.
  - rewrite seq_S, for_of_snoc. simpl.
    destruct IH as (Hsame & Hsub & Hb).
    destruct (for_of (seq 0 n) (None, None) look h0) as [[mn mx] h].
    cbn [fst snd] in *.
    destruct (look_run mn mx n h Hsame) as (Hsame' & Hsub' & Hrun).
    split; [done|]. split; [by transitivity h|]. rewrite Hrun. clear Hrun.
    destruct Hb as (Hmin & Hmax & Hnone & Hboth). simpl in *.
    destruct (decide (occupied h0 buckets n)) as [Hn|Hn]; unfold bounds_of; simpl.
    + split; [|split; [|split]].
      * intros x Hx. destruct mn as [m|].
        -- destruct (Hmin m eq_refl) as (Hm & Hocc & Hleast).
           rewrite decide_False in Hx by lia. injection Hx as <-.
           split; [lia|]. split; [done|]. intros i Hi Hoi.
           destruct (decide (i = n)) as [->|Hne]; [lia|]. apply Hleast; [lia|done].
        -- injection Hx as <-. split; [lia|]. split; [done|]. intros i Hi Hoi.
           destruct (decide (i = n)) as [->|Hne]; [lia|].
           destruct (Hnone eq_refl i); [lia|done].
      * intros y Hy. assert (y = n) as ->.
        { destruct mx as [m|]; [|by injection Hy].
          destruct (Hmax m eq_refl) as (Hm & _).
          rewrite decide_True in Hy by lia. by injection Hy. }
        split; [lia|]. split; [done|]. intros i Hi _. lia.
      * intros E. destruct mn; [by case_decide|done].
      * split; intros E; [destruct mn|destruct mx]; by repeat case_decide.
    + split; [|split; [|split]].
      * intros x Hx. destruct (Hmin x Hx) as (Hm & Hocc & Hleast).
        split; [lia|]. split; [done|]. intros i Hi Hoi.
        destruct (decide (i = n)) as [->|Hne]; [done|]. apply Hleast; [lia|done].
      * intros y Hy. destruct (Hmax y Hy) as (Hm & Hocc & Hmost).
        split; [lia|]. split; [done|]. intros i Hi Hoi.
        destruct (decide (i = n)) as [->|Hne]; [done|]. apply Hmost; [lia|done].
      * intros E i Hi. destruct (decide (i = n)) as [->|Hne]; [done|].
        apply Hnone; [done|lia].
      * done.
Qed.

Lemma getBucketRange_run :
  getBucketRange buckets h0 =
    (match (for_of (seq 0 (length buckets)) (None, None) look h0).1 with
     | (Some a, Some b) => Some (mkRange a b)
     | _ => None
     end,
     (for_of (seq 0 (length buckets)) (None, None) look h0).2).
Proof.
  unfold getBucketRange. unfold mbind at 1. unfold M_bind.
  change (for_of (seq 0 (length buckets)) (None, None) _ h0)
    with (for_of (seq 0 (length buckets)) (None, None) look h0).
  by destruct (for_of (seq 0 (length buckets)) (None, None) look h0)
    as [[[a|] [b|]] h].
Qed.

End getBucketRange_facts.

(** What [getBucketRange] returns and the store it leaves. *)
Lemma getBucketRange_result h (buckets : BucketArray) :
  ∃ st,
    (getBucketRange buckets h).1 =
      match st with
      | (Some a, Some b) => Some (mkRange a b)
      | _ => None
      end
    ∧ bounds_of h buckets (length buckets) st
    ∧ (∀ s, members (getBucketRange buckets h).2 s = members h s)
    ∧ h ⊆ (getBucketRange buckets h).2.
Proof.
  rewrite getBucketRange_run. cbn [fst snd].
  destruct (range_loop buckets h (length buckets)) as (Hsame & Hsub & Hb).
  eexists. split; [reflexivity|]. done.
Qed.

Lemma occupied_in_range h (buckets : BucketArray) i :
  occupied h buckets i → i < length buckets.
Proof.
  intros Ho. apply occupied_slot in Ho as (s & Hs & _). by apply lookup_lt_Some in Hs.
Qed.

(** X1. [getBucketRange] returns [undefined] exactly when no set of the
    array has a card (so also for the empty array). *)
Theorem getBucketRange_undefined h (buckets : BucketArray) :
  (getBucketRange buckets h).1 = None
  ↔ ∀ i s, buckets !! i = Some (Some s) → members h s = [].
Proof.
  destruct (getBucketRange_result h buckets)
    as ([mn mx] & -> & (Hmin & Hmax & Hnone & Hboth) & _). simpl in *.
  split.
  - intros Hr i s Hi. destruct (members h s) as [|x l] eqn:E; [done|]. exfalso.
    assert (mn = None) as Hmn.
    { destruct mn as [a|]; [|done]. destruct mx as [b|]; [done|].
      by apply Hboth. }
    apply (Hnone Hmn i); [by apply lookup_lt_Some in Hi|].
    apply occupied_slot. exists s. split; [done|]. by rewrite E.
  - intros Hempty. destruct mn as [a|]; [|done]. exfalso.
    destruct (Hmin a eq_refl) as (_ & Ho & _).
    apply occupied_slot in Ho as (s & Hs & Hne). by apply Hne, (Hempty a).
Qed.

(** X2. [getBucketRange] returns [{minBucket, maxBucket}] exactly when both
    are indices of sets with a card and every set with a card has its index
    between them: they are the least and the greatest such index. *)
Theorem getBucketRange_least_greatest h (buckets : BucketArray) r :
  (getBucketRange buckets h).1 = Some r
  ↔ occupied h buckets (minBucket r)
    ∧ occupied h buckets (maxBucket r)
    ∧ ∀ i, occupied h buckets i → minBucket r ≤ i ≤ maxBucket r.
Proof.
  destruct (getBucketRange_result h buckets)
    as ([mn mx] & -> & (Hmin & Hmax & Hnone & Hboth) & _). simpl in *.
  split.
  - intros Hr. destruct mn as [a|]; [|done]. destruct mx as [b|]; [|done].
    injection Hr as <-. simpl.
    destruct (Hmin a eq_refl) as (_ & Hoa & Hleast).
    destruct (Hmax b eq_refl) as (_ & Hob & Hmost).
    split; [done|]. split; [done|]. intros i Hi.
    pose proof (occupied_in_range h buckets i Hi). split; auto.
  - intros (Hoa & Hob & Hall). destruct r as [a b]. simpl in *.
    destruct mn as [a'|].
    + destruct mx as [b'|]; [|by destruct Hboth as [_ Hb]; specialize (Hb eq_refl)].
      destruct (Hmin a' eq_refl) as (_ & Hoa' & Hleast).
      destruct (Hmax b' eq_refl) as (_ & Hob' & Hmost).
      pose proof (occupied_in_range h buckets a Hoa).
      pose proof (occupied_in_range h buckets b Hob).
      assert (a' = a) as ->.
      { pose proof (Hall a' Hoa'). pose proof (Hleast a H Hoa). lia. }
      assert (b' = b) as ->.
      { pose proof (Hall b' Hob'). pose proof (Hmost b H0 Hob). lia. }
      done.
    + exfalso. apply (Hnone eq_refl a); [|done]. by apply occupied_in_range in Hoa.
Qed.

(** X3. [getBucketRange] changes no set: every set has the members it had,
    and every object of the store is in the new store as it was. *)
Theorem getBucketRange_reads_only h (buckets : BucketArray) :
  (∀ s, members (getBucketRange buckets h).2 s = members h s)
  ∧ h ⊆ (getBucketRange buckets h).2.
Proof.
  by destruct (getBucketRange_result h buckets) as (st & _ & _ & Hsame & Hsub).
Qed.

(** The ranges that the tests expect. *)
Example getBucketRange_tests :
  let h : store := {[0 := []; 1 := [cardA]; 2 := []; 3 := [cardA]]} in
  (getBucketRange [] h).1 = None
  ∧ (getBucketRange [Some 0; Some 2] h).1 = None
  ∧ (getBucketRange [Some 0; Some 1; Some 2] h).1 = Some (mkRange 1 1)
  ∧ (getBucketRange [Some 1; Some 3; Some 0] h).1 = Some (mkRange 0 1)
  ∧ (getBucketRange [Some 0; Some 1; Some 2; Some 3] h).1 = Some (mkRange 1 3).
Proof. by vm_compute. Qed.

(** ** [toBucketSets], [getBucketRange] and [practice] together *)









(** The members of the set that [practice] returns on a day below 2^53. *)
Lemma practice_members h (buckets : BucketArray) (day : Z) c :
  (0 ≤ day < 2 ^ 53)%Z →
  array_ok h buckets →
  c ∈ members (practice buckets day h).2 (practice buckets day h).1
  ↔ ∃ i, ((day + 1) `mod` 2 ^ Z.of_nat i = 0)%Z ∧ in_slot h buckets i c.
Proof.
  intros Hday Hok.
  destruct (practice_result h buckets day Hok) as (_ & _ & ->).
  unfold in_slot. split.
  - intros (i & s & Hget & Hdue & Hc). exists i.
    split; [by apply dayNumber_due | by exists s].
  - intros (i & Hdue & s & Hget & Hc). exists i, s.
    split; [done|]. split; [by apply dayNumber_due | done].
Qed.



(** ** [practice] *)

(** X7. The set that [practice] returns holds no card twice, also when a
    card is in two buckets that are due. *)
Theorem practice_no_duplicates h (buckets : BucketArray) (day : Z) :
  array_ok h buckets →
  NoDup (members (practice buckets day h).2 (practice buckets day h).1).
Proof.
  intros Hok. rewrite practice_run. cbn [fst snd].
  apply (visit_all_no_dup h buckets day (fresh (dom h)));
    [apply fresh_not_allocated | done | constructor].
Qed.

Lemma example_array_ok : array_ok example_store [Some 0; Some 1; Some 0].
Proof.
  intros i s Hi. apply elem_of_dom.
  destruct i as [|[|[|i]]]; simpl in Hi; [| | |done]; injection Hi as <-; by eexists.
Qed.

Lemma practice_no_duplicates_witness :
  NoDup (members (practice [Some 0; Some 1; Some 0] 3 example_store).2
           (practice [Some 0; Some 1; Some 0] 3 example_store).1).
Proof.
  apply (practice_no_duplicates example_store [Some 0; Some 1; Some 0] 3).
  exact example_array_ok.
Defined.

Lemma mod_pow2_period (a : Z) (i n : nat) :
  i ≤ n → ((a + 2 ^ Z.of_nat n) `mod` 2 ^ Z.of_nat i = a `mod` 2 ^ Z.of_nat i)%Z.
Proof.
  intros Hi. replace (Z.of_nat n) with (Z.of_nat (n - i) + Z.of_nat i)%Z by lia.
  rewrite Z.pow_add_r by lia. apply Z_mod_plus_full.
Qed.

(** X8. The schedule repeats: with [n + 1] at least the length of the array,
    a card is to be practised on day [day + 2^n] exactly when it is on day
    [day], as long as [day + 2^n] is below 2^53. *)
Theorem practice_periodic h (buckets : BucketArray) (day : Z) (n : nat) c :
  (0 ≤ day)%Z →
  (day + 2 ^ Z.of_nat n < 2 ^ 53)%Z →
  array_ok h buckets →
  length buckets ≤ n + 1 →
  c ∈ members (practice buckets (day + 2 ^ Z.of_nat n) h).2
        (practice buckets (day + 2 ^ Z.of_nat n) h).1
  ↔ c ∈ members (practice buckets day h).2 (practice buckets day h).1.
Proof.
  intros Hday Hlt Hok Hn.
  assert (0 < 2 ^ Z.of_nat n)%Z as Hpos by (apply Z.pow_pos_nonneg; lia).
  rewrite !practice_members by (done || lia).
  assert (∀ i, in_slot h buckets i c →
            ((day + 2 ^ Z.of_nat n + 1) `mod` 2 ^ Z.of_nat i
             = (day + 1) `mod` 2 ^ Z.of_nat i)%Z) as Hmod.
  { intros i (s & Hs & _). apply lookup_lt_Some in Hs.
    replace (day + 2 ^ Z.of_nat n + 1)%Z with (day + 1 + 2 ^ Z.of_nat n)%Z by lia.
    apply mod_pow2_period. lia. }
  split; intros (i & Hdue & Hc); exists i; (split; [|done]);
    [by rewrite <- Hmod | by rewrite Hmod].
Qed.

Lemma practice_periodic_witness :
  cardB ∈ members (practice [Some 0; Some 1; Some 0] (1 + 2 ^ Z.of_nat 2) example_store).2
            (practice [Some 0; Some 1; Some 0] (1 + 2 ^ Z.of_nat 2) example_store).1
  ↔ cardB ∈ members (practice [Some 0; Some 1; Some 0] 1 example_store).2
              (practice [Some 0; Some 1; Some 0] 1 example_store).1.
Proof.
  apply (practice_periodic example_store [Some 0; Some 1; Some 0] 1 2 cardB).
  - lia.
  - by vm_compute.
  - exact example_array_ok.
  - simpl. lia.
Defined.

(** X9. On a day [0 <= day < 2^53] with [day + 1] odd (day 0, 2, 4, ...),
    the cards to practise are those of bucket 0 and no other. *)
Theorem practice_odd_day h (buckets : BucketArray) (day : Z) c :
  (0 ≤ day < 2 ^ 53)%Z →
  array_ok h buckets →
  ((day + 1) `mod` 2 = 1)%Z →
  c ∈ members (practice buckets day h).2 (practice buckets day h).1
  ↔ in_slot h buckets 0 c.
Proof.
  intros Hday Hok Hodd. rewrite practice_members by done. split.
  - intros (i & Hdue & Hc). destruct i as [|i]; [done|]. exfalso.
    rewrite Nat2Z.inj_succ, Z.pow_succ_r in Hdue by lia.
    assert (0 < 2 ^ Z.of_nat i)%Z as Hpos by (apply Z.pow_pos_nonneg; lia).
    apply Z.mod_divide in Hdue; [|lia]. destruct Hdue as [q Hq].
    rewrite Hq in Hodd.
    replace (q * (2 * 2 ^ Z.of_nat i))%Z with (q * 2 ^ Z.of_nat i * 2)%Z in Hodd by lia.
    rewrite Z.mod_mul in Hodd by lia. lia.
  - intros Hc. exists 0. split; [|done]. simpl. apply Z.mod_1_r.
Qed.

Lemma practice_odd_day_witness :
  cardA ∈ members (practice [Some 0; Some 1; Some 0] 2 example_store).2
            (practice [Some 0; Some 1; Some 0] 2 example_store).1
  ↔ in_slot example_store [Some 0; Some 1; Some 0] 0 cardA.
Proof.
  apply (practice_odd_day example_store [Some 0; Some 1; Some 0] 2 cardA).
  - lia.
  - exact example_array_ok.
  - reflexivity.
Defined.

(** ** [update] *)

(** Where every card is after the call. *)
Lemma update_in_bucket h (m : BucketMap) c d b :
  store_ok h m →
  in_bucket h m b c →
  (∀ k, in_bucket h m k c → k = b) →
  ∀ k x, in_bucket (update m c d h).2 (update m c d h).1 k x
         ↔ if decide (x = c) then k = new_bucket d b else in_bucket h m k x.
Proof.
  intros Hok Hb Honly k x.
  pose proof (scan_finds h m c b (keys_once h m Hok) Hb Honly) as Hfound.
  destruct Hb as (s & Hs & Hc).
  destruct (decide (x = c)) as [->|Hx].
  - rewrite (update_card_moved h m c d b s Hfound Hs Hok k).
    split; [|by left]. intros [?|[Hne Hk]]; [done|]. by destruct (Hne (Honly k Hk)).
  - by apply (update_other_cards h m c d b s Hfound Hs Hok).
Qed.

(** X10. [update] keeps a well-formed map well formed: the map it returns
    has one entry per key, holds sets of the store, none of them empty, and
    has no card in two buckets; so it can be given to the next call. *)
Theorem update_well_formed h (m : BucketMap) c d :
  well_formed h m → well_formed (update m c d h).2 (update m c d h).1.
Proof. apply update_keeps_well_formed. Qed.

Lemma update_well_formed_witness :
  well_formed (update example_map cardX Easy example_store).2
    (update example_map cardX Easy example_store).1.
Proof.
  apply (update_well_formed example_store example_map cardX Easy).
  exact example_well_formed.
Defined.

(** X11. What the call does to the caller's map.  With the card in bucket
    [b] only, whose set is [S]: after the call the caller's bucket [b] has
    lost the card (it has it again, as its last member, only when the card
    stays in [b] and [S] has other cards); the caller's bucket that the
    card moves to, when the map has it, has gained the card; the caller's
    other buckets are as they were. *)
Theorem update_changes_callers_sets h (m : BucketMap) c d b S :
  store_ok h m →
  bucket h m b = Some S →
  c ∈ S →
  (∀ k, in_bucket h m k c → k = b) →
  let h' := (update m c d h).2 in
  bucket h' m b =
    Some (if decide (new_bucket d b = b ∧ SetValue.delete S c ≠ [])
          then SetValue.add (SetValue.delete S c) c
          else SetValue.delete S c)
  ∧ (∀ k, k ≠ b →
       bucket h' m k =
         if decide (k = new_bucket d b)
         then (λ l, SetValue.add l c) <$> bucket h m k
         else bucket h m k).
Proof.
  intros Hok HS Hc Honly h'. subst h'.
  unfold bucket in HS. destruct (Map_get m b) as [s|] eqn:Hs; [|done].
  simpl in HS. injection HS as <-.
  assert (in_bucket h m b c) as Hb by (by exists s).
  pose proof (scan_finds h m c b (keys_once h m Hok) Hb Honly) as Hfound.
  pose proof (update_callers_buckets h m c d b s Hfound Hs Hok) as Hcall.
  split.
  - rewrite Hcall. by rewrite decide_True.
  - intros k Hk. rewrite Hcall. by rewrite decide_False.
Qed.

Lemma update_changes_callers_sets_witness :
  let h' := (update example_map cardX Easy example_store).2 in
  bucket h' example_map 0 =
    Some (if decide (new_bucket Easy 0 = 0 ∧ SetValue.delete [cardA; cardX] cardX ≠ [])
          then SetValue.add (SetValue.delete [cardA; cardX] cardX) cardX
          else SetValue.delete [cardA; cardX] cardX)
  ∧ (∀ k, k ≠ 0 →
       bucket h' example_map k =
         if decide (k = new_bucket Easy 0)
         then (λ l, SetValue.add l cardX) <$> bucket example_store example_map k
         else bucket example_store example_map k).
Proof.
  assert (in_bucket example_store example_map 0 cardX) as Hin.
  { exists 0. split; [reflexivity|]. vm_compute.
    apply list_elem_of_further, list_elem_of_here. }
  apply (update_changes_callers_sets example_store example_map cardX Easy 0).
  - exact (well_formed_store_ok _ _ example_well_formed).
  - reflexivity.
  - apply list_elem_of_further, list_elem_of_here.
  - intros k Hk. exact (wf_one_bucket _ _ example_well_formed cardX k 0 Hk Hin).
Defined.

(** X12. An [Easy] answer followed by a [Hard] answer for the same card,
    which is in a bucket [b < 2^53], leaves every card of a well-formed map
    in the bucket it was in. *)
Theorem update_easy_then_hard h (m : BucketMap) c b :
  well_formed h m →
  in_bucket h m b c →
  (Z.of_nat b < 2 ^ 53)%Z →
  let m1 := (update m c Easy h).1 in
  let h1 := (update m c Easy h).2 in
  let m2 := (update m1 c Hard h1).1 in
  let h2 := (update m1 c Hard h1).2 in
  ∀ k x, in_bucket h2 m2 k x ↔ in_bucket h m k x.
Proof.
  intros Hwf Hb Hlt m1 h1 m2 h2 k x. subst m2 h2 m1 h1.
  pose proof (well_formed_store_ok h m Hwf) as Hok.
  assert (∀ k, in_bucket h m k c → k = b) as Honly.
  { intros k' Hk'. by apply (wf_one_bucket h m Hwf c). }
  pose proof (update_in_bucket h m c Easy b Hok Hb Honly) as H1.
  rewrite (new_bucket_Easy b Hlt) in H1.
  pose proof (update_keeps_well_formed h m c Easy Hwf) as Hwf1.
  set (m1 := (update m c Easy h).1) in *. set (h1 := (update m c Easy h).2) in *.
  assert (in_bucket h1 m1 (b + 1) c) as Hb1.
  { apply H1. by rewrite decide_True. }
  assert (∀ k, in_bucket h1 m1 k c → k = b + 1) as Honly1.
  { intros k' Hk'. apply H1 in Hk'. by rewrite decide_True in Hk'. }
  rewrite (update_in_bucket h1 m1 c Hard (b + 1)
             (well_formed_store_ok h1 m1 Hwf1) Hb1 Honly1 k x).
  pose proof (new_bucket_Hard (b + 1) ltac:(lia)) as Hback.
  destruct (decide (x = c)) as [->|Hx].
  - split.
    + intros ->. by replace (new_bucket Hard (b + 1)) with b by lia.
    + intros Hk. rewrite (Honly k Hk). lia.
  - rewrite H1. by rewrite decide_False.
Qed.

Lemma update_easy_then_hard_witness :
  well_formed example_store example_map
  ∧ in_bucket example_store example_map 0 cardX
  ∧ (Z.of_nat 0 < 2 ^ 53)%Z
  ∧ (let m1 := (update example_map cardX Easy example_store).1 in
     let h1 := (update example_map cardX Easy example_store).2 in
     let m2 := (update m1 cardX Hard h1).1 in
     let h2 := (update m1 cardX Hard h1).2 in
     ∀ k x, in_bucket h2 m2 k x ↔ in_bucket example_store example_map k x).
Proof.
  assert (in_bucket example_store example_map 0 cardX) as Hin.
  { exists 0. split; [reflexivity|]. vm_compute.
    apply list_elem_of_further, list_elem_of_here. }
  split; [exact example_well_formed|]. split; [exact Hin|].
  split; [reflexivity|].
  exact (update_easy_then_hard example_store example_map cardX 0
           example_well_formed Hin eq_refl).
Defined.




(** ** [getHint] *)

Lemma substring_0_append (s1 s2 : string) :
  substring 0 (String.length s1) (s1 ++ s2)%string = s1.
Proof.
  induction s1 as [|a s1 IH]; simpl.
  - by destruct s2.
  - by rewrite IH.
Qed.

Lemma getHint_run (card : Flashcard) (k : nat) :
  String.length (front card) ≠ 0 →
  String.length (front card) ≤ 2 * k < String.length (front card) + 2 →
  getHint card =
    (substring 0 k (front card)
     ++ repeat_string "_" (String.length (front card) - k))%string.
Proof.
  intros Hz Hk. unfold getHint. rewrite decide_False by done.
  by rewrite (ceil_half _ k Hk).
Qed.

(** X14. The hint of a hint is the hint: with the hint as the front text,
    [getHint] returns the same string. *)
Theorem getHint_idempotent (card : Flashcard) :
  getHint (with_front card (getHint card)) = getHint card.
Proof.
  set (n := String.length (front card)).
  destruct (decide (n = 0)) as [Hz|Hz].
  - assert (getHint card = ""%string) as ->; [|done].
    unfold getHint. by rewrite decide_True.
  - set (k := (n + 1) / 2).
    assert (n ≤ 2 * k < n + 2) as Hk.
    { unfold k. pose proof (Nat.div_mod_eq (n + 1) 2).
      pose proof (Nat.mod_upper_bound (n + 1) 2). lia. }
    rewrite (getHint_run card k Hz Hk). fold n.
    set (shown := substring 0 k (front card)).
    assert (String.length shown = k) as Hshown
      by (apply length_substring_0; fold n; lia).
    assert (String.length (shown ++ repeat_string "_" (n - k))%string = n) as Hlen.
    { rewrite length_append, Hshown, length_repeat_string. lia. }
    rewrite (getHint_run (with_front card _) k); simpl; rewrite Hlen; [|done..].
    f_equal. rewrite <- Hshown at 1. apply substring_0_append.
Qed.

(** ** [computeProgress] *)

(** X15. The success rate is between 0 and 1. *)
Theorem successRate_bounds h (buckets : BucketMap) (history : list HistoryEntry) :
  Qle 0 (successRate (computeProgress buckets history h).1)
  ∧ Qle (successRate (computeProgress buckets history h).1) 1.
Proof.
  rewrite computeProgress_run. cbn [fst successRate].
  destruct (decide (0 < length history)) as [Hlen|Hlen]; [|done].
  rewrite count_successes_filter.
  set (P := λ e : HistoryEntry, difficulty e = Easy ∨ difficulty e = Hard).
  pose proof (length_filter P history) as Hle.
  apply Number_div_bounds; lia.
Qed.

(** ** [update] and [computeProgress] *)

Lemma example_sets_no_dup : sets_no_dup example_store example_map.
Proof.
  intros k s. unfold example_map. simpl.
  repeat case_decide; intros Hk; [| |done]; injection Hk as <-; vm_compute.
  - apply NoDup_cons. split; [|apply NoDup_singleton].
    rewrite list_elem_of_singleton. discriminate.
  - apply NoDup_singleton.
Qed.

(** X16. [update] keeps the number of cards that [computeProgress] reports:
    for a map of sets of the store with no card in two buckets,
    [totalCards] is the same for the map returned as for the map given,
    with any histories. *)
Theorem update_keeps_totalCards h (m : BucketMap) c d
    (history history' : list HistoryEntry) :
  store_ok h m →
  sets_no_dup h m →
  one_bucket_per_card h m →
  totalCards (computeProgress (update m c d h).1 history' (update m c d h).2).1
  = totalCards (computeProgress m history h).1.
Proof.
  intros Hok Hnd Hone. rewrite !computeProgress_run. simpl.
  change (card_count (update m c d h).2 (update m c d h).1 = card_count h m).
  destruct (find_bucket m c h).1 as [b|] eqn:Hfound.
  - destruct (scan_result h m c b (keys_once h m Hok) Hfound) as (s & Hs & Hc).
    apply (update_card_count h m c d b s Hfound Hs Hok (Hnd b s Hs)).
    intros k Hk. apply (Hone c); [done|]. by exists s.
  - by rewrite (update_not_found h m c d Hfound).
Qed.

Lemma update_keeps_totalCards_witness :
  totalCards (computeProgress (update example_map cardX Easy example_store).1
                [mkEntry cardX Easy] (update example_map cardX Easy example_store).2).1
  = totalCards (computeProgress example_map [] example_store).1.
Proof.
  apply (update_keeps_totalCards example_store example_map cardX Easy
           [] [mkEntry cardX Easy]).
  - exact (well_formed_store_ok _ _ example_well_formed).
  - exact example_sets_no_dup.
  - exact (wf_one_bucket _ _ example_well_formed).
Defined.

(** ** [computeProgress]: the hardest cards *)

Lemma wrong_count_pos (history : list HistoryEntry) c :
  0 < wrong_count history c ↔ mkEntry c Wrong ∈ history.
Proof.
  unfold wrong_count. split.
  - intros Hlt. destruct (filter (judged_wrong c) history) as [|e l] eqn:E;
      [simpl in Hlt; lia|].
    assert (e ∈ filter (judged_wrong c) history) as He by (rewrite E; by left).
    apply list_elem_of_filter in He as [[Hcard Hdiff] He].
    destruct e as [c' d']. simpl in *. by subst.
  - intros Hin.
    assert (mkEntry c Wrong ∈ filter (judged_wrong c) history) as He
      by (by apply list_elem_of_filter).
    destruct (filter (judged_wrong c) history); [by apply not_elem_of_nil in He|].
    simpl. lia.
Qed.

(** X17. [hardestCards] has at most three cards, each of them judged [Wrong]
    in some entry of the history, and is empty exactly when no entry of the
    history is judged [Wrong]. *)
Theorem hardestCards_judged_wrong h (buckets : BucketMap)
    (history : list HistoryEntry) :
  let hardest := hardestCards (computeProgress buckets history h).1 in
  length hardest ≤ 3
  ∧ (∀ c, c ∈ hardest → mkEntry c Wrong ∈ history)
  ∧ (hardest = [] ↔ ∀ e, e ∈ history → difficulty e ≠ Wrong).
Proof.
  intros hardest. subst hardest. rewrite computeProgress_run. simpl.
  rewrite fmap_take.
  destruct (hardest_ranking history) as (_ & Hmem & _). cbv zeta in Hmem.
  set (ranking := (Array_sort _ (count_wrong history)).*1) in *.
  split; [|split].
  - rewrite length_take. lia.
  - intros c Hc. apply wrong_count_pos, Hmem.
    apply elem_of_take in Hc as (i & Hi & _).
    by apply list_elem_of_lookup_2 in Hi.
  - split.
    + intros Hnil e He Hw. destruct e as [c d]. simpl in Hw. subst d.
      apply wrong_count_pos, Hmem in He.
      destruct ranking as [|x l]; [by apply not_elem_of_nil in He | done].
    + intros Hno. destruct ranking as [|x l] eqn:E; [done|]. exfalso.
      assert (x ∈ x :: l) as Hx by (by left).
      apply Hmem, wrong_count_pos in Hx. by apply (Hno _ Hx).
Qed.
